(** * kradix: a byte-indexed trie with a node pool

    A shallow embedding of [kradix.go] and the properties of its
    operations [Insert], [Get], [Delete] and [Traverse].

    Modelling choices, all read off the source:
    - [*node[T]] is [option node]: [None] is the nil pointer.  The tree
      owns its nodes exclusively (a released node is unlinked by the
      caller in the same statement that releases it), so the pointer
      graph is a tree and is represented as one.
    - [edges [branchingFactor]*node[T]] is a [list (option node)] of
      length [branchingFactor]; indexing it with a key byte at or above
      that width is Go's index-out-of-range panic.
    - a panic is the [Panic] result; the mutated state is abandoned there.
    - [sync.Pool] hands back either some node that was [Put] earlier or a
      node made by its [New] function.  Which one is not specified, so
      every [Get] of the pool is resolved by an explicit list of picks. *)

From Stdlib Require Import ZArith Ascii String.
From stdpp Require Import list strings.

Set Default Proof Using "Type".

(** ** Results of fallible code *)

Inductive fault : Type :=
  | IndexOutOfRange        (* a[i] with i >= len(a) *)
  | SliceBoundsOutOfRange  (* s[lo:hi] with lo > hi *)
  | NilDereference.

Inductive result (A : Type) : Type :=
  | Ok (a : A)
  | Panic (f : fault).
Arguments Ok {A} a.
Arguments Panic {A} f.

Definition rbind {A B : Type} (m : result A) (k : A -> result B) : result B :=
  match m with
  | Ok a => k a
  | Panic f => Panic f
  end.

Notation "'let*' x := m 'in' k" := (rbind m (fun x => k))
  (at level 10, x pattern, m at level 100, k at level 200,
   format "'let*'  x  :=  m  'in'  '/' k").

(** The zero value [*new(T)] of the payload type. *)
Class ZeroValue (T : Type) : Type := zero : T.
#[export] Instance Z_ZeroValue : ZeroValue Z := 0%Z.

(** ** Data model *)

Definition branchingFactor : nat := 128.
Arguments branchingFactor : simpl never.

#[local] Unset Elimination Schemes.
Inductive node (T : Type) : Type :=
  | Node (terminal : bool) (value : T) (edges : list (option (node T))).
#[local] Set Elimination Schemes.
Arguments Node {T} terminal value edges.

Definition terminal {T} (n : node T) : bool := let 'Node t _ _ := n in t.
Definition value {T} (n : node T) : T := let 'Node _ v _ := n in v.
Definition edges {T} (n : node T) : list (option (node T)) :=
  let 'Node _ _ es := n in es.

Record RadixTree (T : Type) : Type := mkTree {
  root : option (node T);
  pool : list (node T)
}.
Arguments mkTree {T} root pool.
Arguments root {T} r.
Arguments pool {T} r.

(** The index a key byte selects in [edges]. *)
Definition slot (c : ascii) : nat := nat_of_ascii c.

Section Kradix.
Context {T : Type} `{ZeroValue T}.

(** [&node[T]{}] *)
Definition new_node : node T := Node false zero (replicate branchingFactor None).

Definition New : RadixTree T := mkTree (Some new_node) [].

(** *** The pool

    State of the pool while an operation runs: the nodes it holds and
    the picks that resolve the coming [Get]s.  A pick [i] hands out the
    [i]-th held node; a pick beyond the held nodes, or no pick left,
    stands for the pool finding nothing and calling [New].  The list
    holds every node that was [Put] and not handed out since; a
    [sync.Pool] may also forget nodes, which shows here as such a pick,
    so the list is an upper bound of what the pool holds. *)
Definition pstate : Type := list (node T) * list nat.

Definition pool_Get (s : pstate) : node T * pstate :=
  match s.2 with
  | [] => (new_node, s)
  | i :: picks =>
      match s.1 !! i with
      | Some n => (n, (base.delete i s.1, picks))
      | None => (new_node, (s.1, picks))
      end
  end.

Definition pool_Put (n : node T) (p : list (node T)) : list (node T) := n :: p.

(** [n.edges[c]] *)
Definition edge_at (n : node T) (c : ascii) : result (option (node T)) :=
  match edges n !! slot c with
  | Some e => Ok e
  | None => Panic IndexOutOfRange
  end.

(** [n.edges[c] = child] (after [edge_at] succeeded) *)
Definition set_edge (n : node T) (c : ascii) (child : option (node T)) : node T :=
  Node (terminal n) (value n) (<[slot c := child]> (edges n)).

(** [n == nil] at the head of [insert] and [child == nil] in its body *)
Definition or_acquire (n : option (node T)) (s : pstate) : node T * pstate :=
  match n with
  | Some nd => (nd, s)
  | None => pool_Get s
  end.

Fixpoint insert (n : option (node T)) (key : string) (v : T) (s : pstate)
  : result (node T * pstate) :=
  let '(nd, s) := or_acquire n s in
  match key with
  | EmptyString => Ok (Node true v (edges nd), s)
  | String c key' =>
      let* e := edge_at nd c in
      let '(child, s) := or_acquire e s in
      let* (child', s') := insert (Some child) key' v s in
      Ok (set_edge nd c (Some child'), s')
  end.

Definition Insert (picks : list nat) (t : RadixTree T) (key : string) (v : T)
  : result (RadixTree T) :=
  let* (n, s) := insert (root t) key v (pool t, picks) in
  Ok (mkTree (Some n) s.1).

Fixpoint get (n : option (node T)) (key : string) : result (option (node T)) :=
  match n with
  | None => Ok None
  | Some nd =>
      match key with
      | EmptyString => Ok (Some nd)
      | String c key' => let* e := edge_at nd c in get e key'
      end
  end.

Definition Get (t : RadixTree T) (key : string) : result (T * bool) :=
  let* n := get (root t) key in
  Ok match n with
     | None => (zero, false)
     | Some nd => (value nd, terminal nd)
     end.

Definition isLeaf (n : node T) : bool :=
  forallb (fun e => match e with None => true | Some _ => false end) (edges n).

#[global] Arguments isLeaf : simpl never.

Definition hasChildren (n : node T) : bool :=
  existsb (fun e => match e with None => false | Some _ => true end) (edges n).

(** [release] puts the descendants of [n] into the pool, slot by slot
    and children before parents, each with its slots cleared and its
    [terminal] and [value] as they were, and then [n] itself. *)
Fixpoint release (n : node T) (p : list (node T)) : list (node T) :=
  match n with
  | Node t v es =>
      let fix release_edges (es : list (option (node T))) (p : list (node T)) :=
        match es with
        | [] => p
        | None :: es' => release_edges es' p
        | Some ch :: es' => release_edges es' (release ch p)
        end in
      pool_Put (Node t v (replicate (length es) None)) (release_edges es p)
  end.

#[global] Arguments release : simpl never.

(** The loop of [release] over the slots, on its own. *)
Definition release_edges (es : list (option (node T))) (p : list (node T))
  : list (node T) :=
  foldl (fun p e => match e with None => p | Some ch => release ch p end) p es.

(** [delete] threads the flag behind [deleted *bool] and the pool. *)
Fixpoint delete (n : option (node T)) (key : string) (deleted : bool)
    (p : list (node T)) : result (option (node T) * bool * list (node T)) :=
  match n with
  | None => Ok (None, deleted, p)
  | Some nd =>
      match key with
      | EmptyString =>
          Ok (None, true, release (Node false zero (edges nd)) p)
      | String c key' =>
          let* e := edge_at nd c in
          let* (child, deleted, p) := delete e key' deleted p in
          let nd := set_edge nd c child in
          if negb (terminal nd) && isLeaf nd && negb deleted
          then Ok (None, true, release nd p)
          else Ok (Some nd, deleted, p)
      end
  end.

Definition Delete (t : RadixTree T) (key : string) : result (bool * RadixTree T) :=
  let* (n, deleted, p) := delete (root t) key false (pool t) in
  Ok (deleted, mkTree n p).


(** *** Well-formed states

    Every node carries exactly [branchingFactor] slots (the array type
    of [edges]); the pool holds nodes whose slots are all empty. *)
Fixpoint wf_node (n : node T) : bool :=
  match n with
  | Node _ _ es =>
      (length es =? branchingFactor) &&
      forallb (fun e => match e with None => true | Some ch => wf_node ch end) es
  end.

Definition wf_ref (n : option (node T)) : bool :=
  match n with None => true | Some nd => wf_node nd end.

Definition pooled_ok (n : node T) : bool :=
  (length (edges n) =? branchingFactor) && isLeaf n.

Definition wf_pool (p : list (node T)) : bool := forallb pooled_ok p.

Definition wf_tree (t : RadixTree T) : bool := wf_ref (root t) && wf_pool (pool t).

(** Keys all of whose bytes select a slot below the fan-out width. *)
Fixpoint key_ok (key : string) : bool :=
  match key with
  | EmptyString => true
  | String c key' => (slot c <? branchingFactor) && key_ok key'
  end.

(** [k] is stored: the descent for [k] ends on a terminal node. *)
Definition stored (n : option (node T)) (key : string) : Prop :=
  exists m, get n key = Ok (Some m) /\ terminal m = true.

End Kradix.

(** ** Induction over nodes, through the slots *)

Section NodeInd.
Context {T : Type} (P : node T -> Prop).
Hypothesis HNode : forall t v es,
  Forall (fun e => match e with None => True | Some ch => P ch end) es ->
  P (Node t v es).

Fixpoint node_ind (n : node T) : P n :=
  match n with
  | Node t v es =>
      HNode t v es
        ((fix slots (es : list (option (node T))) :
            Forall (fun e => match e with None => True | Some ch => P ch end) es :=
            match es with
            | [] => @List.Forall_nil _ _
            | e :: es' =>
                @List.Forall_cons _ _ e es'
                  (match e return match e with None => True | Some ch => P ch end
                   with None => I | Some ch => node_ind ch end)
                  (slots es')
            end) es)
  end.
End NodeInd.

(** ** Traverse

    [Traverse] keeps one slice of node pointers, shared between its loop
    and the goroutines it starts.  A pointer is modelled by the path of
    slots that leads from the root to the node, which is what tells two
    nodes of a tree apart; a stack entry carries the pointee with it.

    Each goroutine started by the loop appends the children it was given
    to the shared slice.  The model runs such a goroutine in one piece, at
    one of the points where the loop reads the slice: before the loop
    condition, or between the pop and the call of [prefix].  Which
    goroutines run at which point is the schedule, a list with one entry
    per point, naming the waiting goroutines by position.  Goroutines the
    schedule never names run after the loop has ended, when nothing reads
    the slice any more.  Finer interleavings exist in Go; every behaviour
    of the model is one of the program.

    The loop holds one count of the wait group from its [wg.Add(1)] to
    the [wg.Done()] after the loop, so the [wg.Wait()] it calls for a node
    with more than ten children cannot return: [Blocked]. *)

Definition ptr : Type := list nat.
Definition ref (T : Type) : Type := option (ptr * node T).

Inductive outcome (T : Type) : Type :=
  | Returned (visits : list (string * T))
  | Faulted (f : fault) (visits : list (string * T))
  | Blocked (visits : list (string * T))   (* wg.Wait() that cannot return *)
  | OutOfFuel.
Arguments Returned {T} visits.
Arguments Faulted {T} f visits.
Arguments Blocked {T} visits.
Arguments OutOfFuel {T}.

Section Traverse.
Context {T : Type} `{ZeroValue T}.

Definition ptr_of (r : ref T) : option ptr := fst <$> r.

(** The pointer held in slot [i] of the node at [p]. *)
Definition edge_ref (p : ptr) (i : nat) (e : option (node T)) : ref T :=
  match e with
  | None => None
  | Some ch => Some (p ++ [i], ch)
  end.

(** [for _, e := range n.edges { if e != nil { children = append(children, e) } }] *)
Fixpoint children_from (p : ptr) (i : nat) (es : list (option (node T))) : list (ref T) :=
  match es with
  | [] => []
  | None :: es' => children_from p (S i) es'
  | Some ch :: es' => Some (p ++ [i], ch) :: children_from p (S i) es'
  end.

(** [for i, e := range n.edges { if e == top { WriteByte(byte(i)); break } }] *)
Fixpoint find_edge (p : ptr) (top : option ptr) (i : nat) (es : list (option (node T)))
  : option nat :=
  match es with
  | [] => None
  | e :: es' =>
      if decide (ptr_of (edge_ref p i e) = top) then Some i
      else find_edge p top (S i) es'
  end.

Fixpoint prefix_loop (top : option ptr) (ns : list (ref T)) : result string :=
  match ns with
  | [] => Ok EmptyString
  | None :: _ => Panic NilDereference
  | Some (p, nd) :: ns' =>
      let* rest := prefix_loop top ns' in
      Ok match find_edge p top 0 (edges nd) with
         | Some i => String (ascii_of_nat i) rest
         | None => rest
         end
  end.

(** [stack[1:]] needs [1 <= len(stack)]. *)
Definition prefix (stack : list (ref T)) : result string :=
  match stack with
  | [] => Panic SliceBoundsOutOfRange
  | _ :: tl => prefix_loop (last stack ≫= ptr_of) tl
  end.

(** [n := stack[len(stack)-1]; stack = stack[:len(stack)-1]] *)
Definition pop (stack : list (ref T)) : option (ref T * list (ref T)) :=
  match last stack with
  | None => None
  | Some n => Some (n, removelast stack)
  end.

Definition run_goroutine (st : list (ref T) * list (list (ref T))) (i : nat)
  : list (ref T) * list (list (ref T)) :=
  match st.2 !! i with
  | Some children => (st.1 ++ children, base.delete i st.2)
  | None => st
  end.

Definition yield (sched : list (list nat)) (stack : list (ref T))
    (waiting : list (list (ref T)))
  : list (ref T) * list (list (ref T)) * list (list nat) :=
  match sched with
  | [] => (stack, waiting, [])
  | now :: sched' => (foldl run_goroutine (stack, waiting) now, sched')
  end.

Fixpoint traverse_loop (fuel : nat) (sched : list (list nat)) (stack : list (ref T))
    (waiting : list (list (ref T))) (visits : list (string * T)) : outcome T :=
  match fuel with
  | O => OutOfFuel
  | S fuel =>
      let '(stack, waiting, sched) := yield sched stack waiting in
      match pop stack with
      | None => Returned visits
      | Some (None, stack) => traverse_loop fuel sched stack waiting visits
      | Some (Some (p, nd), stack) =>
          let '(stack, waiting, sched) := yield sched stack waiting in
          let visited :=
            if terminal nd
            then let* k := prefix stack in Ok (visits ++ [(k, value nd)])
            else Ok visits in
          match visited with
          | Panic f => Faulted f visits
          | Ok visits =>
              if hasChildren nd then
                let children := children_from p 0 (edges nd) in
                let waiting := waiting ++ [children] in
                if 10 <? length children
                then Blocked visits
                else traverse_loop fuel sched stack waiting visits
              else traverse_loop fuel sched stack waiting visits
          end
      end
  end.

(** [t.root] as a stack entry: the pointer with the empty path. *)
Definition root_ref (t : RadixTree T) : ref T :=
  match root t with
  | None => None
  | Some n => Some ([], n)
  end.

Definition Traverse (fuel : nat) (sched : list (list nat)) (t : RadixTree T) : outcome T :=
  traverse_loop fuel sched [root_ref t] [] [].

End Traverse.

(** ** Sequences of operations *)

Inductive op (T : Type) : Type :=
  | OpInsert (picks : list nat) (key : string) (v : T)
  | OpGet (key : string)
  | OpDelete (key : string).
Arguments OpInsert {T} picks key v.
Arguments OpGet {T} key.
Arguments OpDelete {T} key.

Section Runs.
Context {T : Type} `{ZeroValue T}.

Definition apply_op (t : RadixTree T) (o : op T) : result (RadixTree T) :=
  match o with
  | OpInsert picks key v => Insert picks t key v
  | OpGet key => let* _ := Get t key in Ok t
  | OpDelete key => let* (_, t') := Delete t key in Ok t'
  end.

Definition op_key (o : op T) : string :=
  match o with
  | OpInsert _ key _ | OpGet key | OpDelete key => key
  end.

Fixpoint run_ops (t : RadixTree T) (ops : list (op T)) : result (RadixTree T) :=
  match ops with
  | [] => Ok t
  | o :: ops' => let* t' := apply_op t o in run_ops t' ops'
  end.

(** Some node below [n] is neither terminal nor has a child. *)
Fixpoint has_dangling (n : node T) : bool :=
  match n with
  | Node _ _ es =>
      existsb (fun e => match e with
                        | None => false
                        | Some ch => negb (terminal ch) && isLeaf ch || has_dangling ch
                        end) es
  end.

Definition pruned (t : RadixTree T) : bool :=
  match root t with
  | None => true
  | Some n => negb (has_dangling n)
  end.

End Runs.

(** ** Measures and views used to state the further properties *)

Section Measures.
Context {T : Type} `{ZeroValue T}.

(** A node that reads like one [New] of the pool makes: not terminal,
    zero value. *)
Definition clean (n : node T) : Prop := terminal n = false /\ value n = zero.

(** The nodes of the subtree at [n], [n] included. *)
Fixpoint node_count (n : node T) : nat :=
  match n with
  | Node _ _ es =>
      S (foldr (fun e acc => match e with
                             | None => acc
                             | Some ch => node_count ch + acc
                             end) 0 es)
  end.

Definition ref_count (e : option (node T)) : nat :=
  match e with None => 0 | Some n => node_count n end.

(** The value the last pair for [k] in [kvs] carries. *)
Fixpoint latest (kvs : list (list nat * string * T)) (k : string) : option T :=
  match kvs with
  | [] => None
  | (_, k', v) :: rest =>
      match latest rest k with
      | Some v' => Some v'
      | None => if String.eqb k' k then Some v else None
      end
  end.

Definition inserts (kvs : list (list nat * string * T)) : list (op T) :=
  map (fun '(picks, k, v) => OpInsert picks k v) kvs.

End Measures.

(** Trees of integers to try the operations on: with "a", "ab" and "abc"
    stored; with the empty key stored; with eleven one-byte keys. *)
Definition tree_of (ops : list (op Z)) : RadixTree Z :=
  match run_ops New ops with
  | Ok t => t
  | Panic _ => New
  end.

Definition abc_tree : RadixTree Z :=
  tree_of [OpInsert [] "a" 1%Z; OpInsert [] "ab" 2%Z; OpInsert [] "abc" 3%Z].

Definition empty_key_tree : RadixTree Z := tree_of [OpInsert [] "" 7%Z].

Definition wide_tree : RadixTree Z :=
  tree_of (map (fun k => OpInsert [] k 1%Z)
             ["a"; "b"; "c"; "d"; "e"; "f"; "g"; "h"; "i"; "j"; "k"]%string).

(** The tree that [Delete] of the empty key makes of a new tree of
    integers: no root, one node pooled. *)
Definition released_root : RadixTree Z := mkTree None [new_node].

(** * Properties *)

Section Facts.
Context {T : Type} `{ZeroValue T}.
Implicit Types (n nd : node T) (e : option (node T)) (p : list (node T))
  (key : string) (c : ascii) (t : RadixTree T).

Lemma node_eta n : Node (terminal n) (value n) (edges n) = n.
Proof. by destruct n. Qed.

Lemma rbind_ok {A B} (m : result A) (k : A -> result B) b :
  rbind m k = Ok b -> exists a, m = Ok a /\ k a = Ok b.
Proof. destruct m as [a|f]; simpl; [eauto | discriminate]. Qed.

(** *** Slots *)

Lemma edge_at_Ok n c e : edge_at n c = Ok e <-> edges n !! slot c = Some e.
Proof.
  unfold edge_at. destruct (edges n !! slot c) as [e'|]; split; congruence.
Qed.

Lemma edge_at_in_range n c :
  length (edges n) = branchingFactor -> slot c < branchingFactor ->
  exists e, edge_at n c = Ok e.
Proof.
  intros Hlen Hc. destruct (lookup_lt_is_Some_2 (edges n) (slot c)) as [e He]; [lia|].
  exists e. by apply edge_at_Ok.
Qed.

Lemma edge_at_out_of_range n c :
  length (edges n) = branchingFactor -> branchingFactor <= slot c ->
  edge_at n c = Panic IndexOutOfRange.
Proof.
  intros Hlen Hc. unfold edge_at. by rewrite lookup_ge_None_2 by lia.
Qed.

Lemma set_edge_same n c e : edge_at n c = Ok e -> set_edge n c e = n.
Proof.
  intros He%edge_at_Ok. unfold set_edge. rewrite list_insert_id by done.
  apply node_eta.
Qed.

Lemma edge_at_set_edge n c e e' :
  edge_at n c = Ok e -> edge_at (set_edge n c e') c = Ok e'.
Proof.
  intros He%edge_at_Ok. apply edge_at_Ok. simpl.
  apply list_lookup_insert_eq. by eapply lookup_lt_Some.
Qed.

Lemma isLeaf_spec n : isLeaf n = true <-> forall i e, edges n !! i = Some e -> e = None.
Proof.
  unfold isLeaf. rewrite forallb_forall. split.
  - intros Hall i e Hi. apply list_elem_of_lookup_2, list_elem_of_In, Hall in Hi.
    by destruct e.
  - intros Hall e [i Hi]%list_elem_of_In%list_elem_of_lookup_1.
    by rewrite (Hall i e Hi).
Qed.

Lemma isLeaf_replicate (b : bool) (v : T) k : isLeaf (Node b v (replicate k None)) = true.
Proof. apply isLeaf_spec. simpl. by intros i e [-> _]%lookup_replicate. Qed.

(** *** Well-formedness *)

Lemma wf_node_spec n :
  wf_node n = true <->
  length (edges n) = branchingFactor /\
  forall i e, edges n !! i = Some e -> wf_ref e = true.
Proof.
  destruct n as [b v es]. simpl.
  rewrite andb_true_iff, Nat.eqb_eq, forallb_forall. apply and_iff_compat_l. split.
  - intros Hall i e Hi. apply list_elem_of_lookup_2, list_elem_of_In, Hall in Hi.
    by destruct e.
  - intros Hall e [i Hi]%list_elem_of_In%list_elem_of_lookup_1.
    specialize (Hall i e Hi). by destruct e.
Qed.

Lemma wf_node_edge n c e : wf_node n = true -> edge_at n c = Ok e -> wf_ref e = true.
Proof. intros [_ Hn]%wf_node_spec He%edge_at_Ok. eauto. Qed.

Lemma wf_node_set_edge n c e :
  wf_node n = true -> wf_ref e = true -> wf_node (set_edge n c e) = true.
Proof.
  intros [Hlen Hn]%wf_node_spec He. apply wf_node_spec. simpl.
  rewrite length_insert. split; [done|]. intros i e' Hi.
  destruct (decide (i = slot c)) as [->|Hne].
  - rewrite list_lookup_insert_eq in Hi by (by eapply lookup_lt_Some in Hi; rewrite length_insert in Hi).
    by simplify_eq.
  - rewrite list_lookup_insert_ne in Hi by done. eauto.
Qed.

Lemma wf_node_terminal n v :
  wf_node n = true -> wf_node (Node true v (edges n)) = true.
Proof. by destruct n. Qed.

Lemma pooled_ok_wf n : pooled_ok n = true -> wf_node n = true.
Proof.
  unfold pooled_ok. rewrite andb_true_iff, Nat.eqb_eq. intros [Hlen Hleaf].
  apply wf_node_spec. split; [done|]. intros i e Hi.
  by rewrite (proj1 (isLeaf_spec n) Hleaf i e Hi).
Qed.

Lemma new_node_pooled_ok : pooled_ok (@new_node T _) = true.
Proof.
  unfold pooled_ok, new_node. rewrite isLeaf_replicate. cbn [edges].
  by rewrite length_replicate, Nat.eqb_refl.
Qed.

Lemma wf_pool_spec p : wf_pool p = true <-> Forall (fun n => pooled_ok n = true) p.
Proof. unfold wf_pool. by rewrite forallb_forall, Forall_forall; setoid_rewrite list_elem_of_In. Qed.

(** *** The pool *)

Lemma pool_Get_wf (s : @pstate T) :
  wf_pool s.1 = true ->
  pooled_ok (pool_Get s).1 = true /\ wf_pool (pool_Get s).2.1 = true.
Proof.
  destruct s as [p picks]. unfold pool_Get. simpl. intros Hp.
  destruct picks as [|i picks]; simpl; [by split; [apply new_node_pooled_ok|]|].
  destruct (p !! i) as [n|] eqn:Hi; simpl; [|by split; [apply new_node_pooled_ok|]].
  apply wf_pool_spec in Hp. split.
  - by eapply (proj1 (Forall_lookup _ _) Hp).
  - apply wf_pool_spec. eapply Forall_delete. exact Hp.
Qed.

Lemma or_acquire_wf e (s : @pstate T) :
  wf_ref e = true -> wf_pool s.1 = true ->
  wf_node (or_acquire e s).1 = true /\ wf_pool (or_acquire e s).2.1 = true.
Proof.
  intros He Hs. destruct e as [nd|]; simpl; [done|].
  destruct (pool_Get_wf s Hs) as [Hn Hp]. split; [by apply pooled_ok_wf|done].
Qed.

(** *** insert *)

Lemma insert_total key : forall e v (s : @pstate T),
  key_ok key = true -> wf_ref e = true -> wf_pool s.1 = true ->
  exists n' s', insert e key v s = Ok (n', s') /\
                wf_node n' = true /\ wf_pool s'.1 = true.
Proof.
  induction key as [|c key IH]; intros e v s Hk He Hs; simpl.
  - destruct (or_acquire_wf e s He Hs) as [Hn Hp].
    destruct (or_acquire e s) as [nd s1]. eexists _, _. split; [done|].
    split; [by apply wf_node_terminal|done].
  - apply andb_true_iff in Hk as [Hc%Nat.ltb_lt Hk].
    destruct (or_acquire_wf e s He Hs) as [Hn Hp].
    destruct (or_acquire e s) as [nd s1]. simpl in Hn, Hp.
    destruct (edge_at_in_range nd c) as [e1 He1]; [by apply wf_node_spec in Hn as [? _]|done|].
    rewrite He1. simpl.
    pose proof (wf_node_edge _ _ _ Hn He1) as Hwe1.
    destruct (or_acquire_wf e1 s1 Hwe1 Hp) as [Hch Hp2].
    destruct (or_acquire e1 s1) as [child s2]. simpl in Hch, Hp2.
    destruct (IH (Some child) v s2 Hk Hch Hp2) as (child' & s3 & -> & Hch' & Hp3).
    simpl. eexists _, _. split; [done|]. split; [|done].
    by apply wf_node_set_edge.
Qed.

Lemma get_insert key : forall e v (s s' : @pstate T) n',
  insert e key v s = Ok (n', s') ->
  exists m, get (Some n') key = Ok (Some m) /\ terminal m = true /\ value m = v.
Proof.
  induction key as [|c key IH]; intros e v s s' n'; simpl.
  - destruct (or_acquire e s) as [nd s1]. intros [= <- <-]. eauto.
  - destruct (or_acquire e s) as [nd s1].
    intros (e1 & He1 & Hrest)%rbind_ok.
    destruct (or_acquire e1 s1) as [child s2].
    apply rbind_ok in Hrest as ([child' s3] & Hins & [= <- <-]).
    rewrite (edge_at_set_edge _ _ _ _ He1). simpl.
    destruct (IH _ _ _ _ _ Hins) as (m & Hm). eauto.
Qed.

Lemma insert_wf key : forall e v (s s' : @pstate T) n',
  wf_ref e = true -> wf_pool s.1 = true -> insert e key v s = Ok (n', s') ->
  wf_node n' = true /\ wf_pool s'.1 = true.
Proof.
  induction key as [|c key IH]; intros e v s s' n' He Hs; simpl;
    destruct (or_acquire_wf e s He Hs) as [Hn Hp];
    destruct (or_acquire e s) as [nd s1]; simpl in Hn, Hp.
  - intros [= <- <-]. split; [by apply wf_node_terminal|done].
  - intros (e1 & He1 & Hrest)%rbind_ok.
    pose proof (wf_node_edge _ _ _ Hn He1) as Hwe1.
    destruct (or_acquire_wf e1 s1 Hwe1 Hp) as [Hch Hp2].
    destruct (or_acquire e1 s1) as [child s2]. simpl in Hch, Hp2.
    apply rbind_ok in Hrest as ([child' s3] & Hins & [= <- <-]).
    destruct (IH (Some child) _ _ _ _ Hch Hp2 Hins) as [Hch' Hp3].
    split; [by apply wf_node_set_edge|done].
Qed.

Lemma get_total key : forall e,
  key_ok key = true -> wf_ref e = true -> exists m, get e key = Ok m.
Proof.
  induction key as [|c key IH]; intros [nd|] Hk He; simpl; eauto.
  apply andb_true_iff in Hk as [Hc%Nat.ltb_lt Hk].
  destruct (edge_at_in_range nd c) as [e1 He1]; [by apply wf_node_spec in He as [? _]|done|].
  rewrite He1. simpl. apply IH; [done|]. by eapply wf_node_edge.
Qed.

(** *** release *)

Lemma release_unfold n p :
  release n p =
  pool_Put (Node (terminal n) (value n) (replicate (length (edges n)) None))
           (release_edges (edges n) p).
Proof.
  destruct n as [b v es]. unfold release at 1. fold (@release T). f_equal.
  unfold release_edges. cbn [terminal value edges].
  revert p. induction es as [|[ch|] es IH]; intros p; simpl; auto.
Qed.

Lemma release_wf n : wf_node n = true -> forall p, wf_pool p = true -> wf_pool (release n p) = true.
Proof.
  induction n as [b v es IH] using node_ind. intros Hn p Hp.
  rewrite release_unfold. cbn [terminal value edges].
  apply wf_node_spec in Hn as [Hlen Hes]. cbn [edges] in Hlen, Hes.
  unfold pool_Put, wf_pool. cbn [forallb]. apply andb_true_iff. split.
  - unfold pooled_ok. rewrite isLeaf_replicate. cbn [edges].
    by rewrite length_replicate, Hlen, Nat.eqb_refl.
  - clear Hlen. unfold release_edges. revert p Hp.
    induction es as [|e es IHes]; intros p Hp; simpl; [done|].
    apply Forall_cons in IH as [IHe IH].
    apply IHes; [done|by intros i e' Hi; apply (Hes (S i))|].
    destruct e as [ch|]; [|done].
    apply IHe; [|done]. exact (Hes 0 (Some ch) eq_refl).
Qed.

(** *** delete *)

Lemma delete_total key : forall e (d : bool) p,
  key_ok key = true -> wf_ref e = true -> wf_pool p = true ->
  exists e' d' p', delete e key d p = Ok (e', d', p') /\
                   wf_ref e' = true /\ wf_pool p' = true.
Proof.
  induction key as [|c key IH]; intros [nd|] d p Hk He Hp; cbn -[release];
    try by (eexists _, _, _; eauto).
  - eexists _, _, _. split; [done|]. split; [done|].
    apply release_wf; [by destruct nd|done].
  - apply andb_true_iff in Hk as [Hc%Nat.ltb_lt Hk]. simpl in He.
    destruct (edge_at_in_range nd c) as [e1 He1]; [by apply wf_node_spec in He as [? _]|done|].
    rewrite He1. cbn -[release].
    destruct (IH e1 d p Hk (wf_node_edge _ _ _ He He1) Hp)
      as (child & d1 & p1 & -> & Hchild & Hp1).
    cbn -[release]. pose proof (wf_node_set_edge nd c child He Hchild) as Hnd'.
    destruct (negb _ && _ && _); eexists _, _, _; (split; [done|]); split; try done.
    by apply release_wf.
Qed.

Lemma delete_wf key : forall e (d d' : bool) p e' p',
  wf_ref e = true -> wf_pool p = true -> delete e key d p = Ok (e', d', p') ->
  wf_ref e' = true /\ wf_pool p' = true.
Proof.
  induction key as [|c key IH]; intros [nd|] d d' p e' p' He Hp; cbn -[release];
    try by intros [= <- <- <-].
  - intros [= <- <- <-]. split; [done|]. apply release_wf; [by destruct nd|done].
  - intros (e1 & He1 & Hrest)%rbind_ok.
    apply rbind_ok in Hrest as ([[child d1] p1] & Hdel & Hres).
    destruct (IH _ _ _ _ _ _ (wf_node_edge _ _ _ He He1) Hp Hdel) as [Hchild Hp1].
    pose proof (wf_node_set_edge nd c child He Hchild) as Hnd'.
    destruct (negb _ && _ && _); injection Hres as <- <- <-; split; try done.
    by apply release_wf.
Qed.

(** A [delete] that leaves the flag down has touched nothing. *)
Lemma delete_false_unchanged key : forall e (d : bool) p e' p',
  delete e key d p = Ok (e', false, p') -> d = false /\ e' = e /\ p' = p.
Proof.
  induction key as [|c key IH]; intros [nd|] d p e' p'; cbn -[release];
    try by intros [= <- <- <-].
  intros (e1 & He1 & Hrest)%rbind_ok.
  apply rbind_ok in Hrest as ([[child d1] p1] & Hdel & Hres).
  destruct (negb _ && _ && _); [discriminate|].
  injection Hres as <- -> <-.
  destruct (IH _ _ _ _ _ Hdel) as (-> & -> & ->).
  by rewrite (set_edge_same _ _ _ He1).
Qed.

(** A [delete] that is handed a raised flag, or ends on a node, raises it. *)
Lemma delete_flag_mono key : forall e p e' d' p',
  delete e key true p = Ok (e', d', p') -> d' = true.
Proof.
  intros e p e' [] p'; [done|]. by intros (? & _)%delete_false_unchanged.
Qed.

Lemma delete_stored key : forall e (d : bool) p,
  stored e key -> wf_pool p = true ->
  exists e' p', delete e key d p = Ok (e', true, p').
Proof.
  induction key as [|c key IH]; intros [nd|] d p (m & Hget & Hm) Hp;
    simpl in Hget; try discriminate; cbn -[release].
  - eauto.
  - apply rbind_ok in Hget as (e1 & He1 & Hget). rewrite He1. cbn -[release].
    destruct (IH e1 d p) as (child & p1 & ->); [by exists m|done|].
    cbn -[release]. rewrite andb_false_r. eauto.
Qed.

(** *** The operations on well-formed trees *)

Lemma New_wf : wf_tree (@New T _) = true.
Proof.
  unfold wf_tree, New. cbn [root pool wf_ref wf_pool forallb].
  by rewrite (pooled_ok_wf _ new_node_pooled_ok).
Qed.

Lemma wf_tree_spec t : wf_tree t = true <-> wf_ref (root t) = true /\ wf_pool (pool t) = true.
Proof. unfold wf_tree. apply andb_true_iff. Qed.

Lemma Insert_total picks t key v :
  wf_tree t = true -> key_ok key = true ->
  exists t', Insert picks t key v = Ok t' /\ wf_tree t' = true /\
             root t' <> None /\ Get t' key = Ok (v, true).
Proof.
  intros [Hr Hp]%wf_tree_spec Hk. unfold Insert.
  destruct (insert_total key (root t) v (pool t, picks) Hk Hr Hp)
    as (n' & s' & Hins & Hn' & Hs').
  rewrite Hins. cbn [rbind]. eexists. split; [done|]. split; [|split; [done|]].
  - apply wf_tree_spec. by split.
  - destruct (get_insert _ _ _ _ _ _ Hins) as (m & Hget & Hm & Hv).
    unfold Get. cbn [root]. rewrite Hget. cbn [rbind]. by rewrite Hm, Hv.
Qed.

Lemma Get_total t key :
  wf_tree t = true -> key_ok key = true -> exists r, Get t key = Ok r.
Proof.
  intros [Hr _]%wf_tree_spec Hk. unfold Get.
  destruct (get_total key (root t) Hk Hr) as [m ->]. cbn [rbind]. eauto.
Qed.

Lemma Delete_total t key :
  wf_tree t = true -> key_ok key = true ->
  exists d t', Delete t key = Ok (d, t') /\ wf_tree t' = true.
Proof.
  intros [Hr Hp]%wf_tree_spec Hk. unfold Delete.
  destruct (delete_total key (root t) false (pool t) Hk Hr Hp)
    as (e' & d' & p' & -> & He' & Hp').
  cbn [rbind]. eexists _, _. split; [done|]. apply wf_tree_spec. by split.
Qed.

(** A stored key is reported as deleted. *)
Lemma Delete_stored t key :
  wf_tree t = true -> stored (root t) key -> exists t', Delete t key = Ok (true, t').
Proof.
  intros [_ Hp]%wf_tree_spec Hst. unfold Delete.
  destruct (delete_stored key (root t) false (pool t) Hst Hp) as (e' & p' & ->).
  cbn [rbind]. eauto.
Qed.

(** A [Delete] that reports [false] has left the tree as it was. *)
Lemma Delete_false_unchanged t key t' : Delete t key = Ok (false, t') -> t' = t.
Proof.
  unfold Delete. intros ([[e d] p] & Hdel & [= -> <-])%rbind_ok.
  apply delete_false_unchanged in Hdel as (_ & -> & ->). by destruct t.
Qed.

(** A key byte at or above the fan-out width faults where the descent
    reaches it on a node. *)
Lemma out_of_range_byte_faults picks t n c key v :
  root t = Some n -> wf_tree t = true -> branchingFactor <= slot c ->
  Insert picks t (String c key) v = Panic IndexOutOfRange /\
  Get t (String c key) = Panic IndexOutOfRange /\
  Delete t (String c key) = Panic IndexOutOfRange.
Proof.
  intros Hroot [Hr _]%wf_tree_spec Hc. rewrite Hroot in Hr.
  apply wf_node_spec in Hr as [Hlen _].
  unfold Insert, Get, Delete. rewrite Hroot. cbn -[release].
  by rewrite (edge_at_out_of_range n c Hlen Hc).
Qed.

Lemma apply_op_total t o :
  wf_tree t = true -> key_ok (op_key o) = true ->
  exists t', apply_op t o = Ok t' /\ wf_tree t' = true.
Proof.
  intros Ht Hk. destruct o as [picks key v|key|key]; cbn [apply_op op_key] in *.
  - destruct (Insert_total picks t key v Ht Hk) as (t' & -> & Ht' & _). eauto.
  - destruct (Get_total t key Ht Hk) as (r & ->). cbn [rbind]. eauto.
  - destruct (Delete_total t key Ht Hk) as (d & t' & -> & Ht'). cbn [rbind]. eauto.
Qed.

(** Well-formedness is kept along every run. *)
Lemma run_ops_wf ops : forall t t',
  wf_tree t = true -> run_ops t ops = Ok t' -> wf_tree t' = true.
Proof.
  induction ops as [|o ops IH]; intros t t' Ht; cbn [run_ops].
  - by intros [= <-].
  - intros (t1 & Hstep & Hrun)%rbind_ok. apply (IH t1 t'); [|done].
    destruct o as [picks key v|key|key]; cbn [apply_op] in Hstep.
    + unfold Insert in Hstep. apply rbind_ok in Hstep as ([n s] & Hins & [= <-]).
      apply wf_tree_spec in Ht as [Hr Hp]. apply wf_tree_spec.
      exact (insert_wf key (root t) v (pool t, picks) s n Hr Hp Hins).
    + by apply rbind_ok in Hstep as (_ & _ & [= <-]).
    + unfold Delete in Hstep.
      apply rbind_ok in Hstep as ([d t2] & Hdel & [= <-]).
      apply rbind_ok in Hdel as ([[e d'] p] & Hdel & [= _ <-]).
      apply wf_tree_spec in Ht as [Hr Hp]. apply wf_tree_spec.
      exact (delete_wf key (root t) false d' (pool t) e p Hr Hp Hdel).
Qed.

(** Every state reached from [New] is well formed. *)
Lemma reachable_wf ops t : run_ops New ops = Ok t -> wf_tree t = true.
Proof. apply run_ops_wf, New_wf. Qed.


End Facts.

(** * The operations, claim by claim *)

Section Generic.
Context {T : Type} `{ZeroValue T}.

Lemma insert_nil key (v : T) (s : pstate) :
  insert None key v s = insert (Some (pool_Get s).1) key v (pool_Get s).2.
Proof. destruct key; simpl; by destruct (pool_Get s). Qed.

(** C9. On a well-formed tree and for a key whose bytes are all below
    the fan-out width, [Insert k v] succeeds and [Get k] right after it
    returns [(v, true)]; inserting the same key again with another value
    succeeds too, and [Get k] then returns the later value.  This holds
    whatever nodes the pool hands out. *)
Theorem Insert_then_Get (picks picks' : list nat) (t : RadixTree T)
    (k : string) (v v' : T)
    (Hwf : wf_tree t = true) (Hk : key_ok k = true) :
  exists t1, Insert picks t k v = Ok t1 /\ Get t1 k = Ok (v, true) /\
  exists t2, Insert picks' t1 k v' = Ok t2 /\ Get t2 k = Ok (v', true).
Proof.
  destruct (Insert_total picks t k v Hwf Hk) as (t1 & Hins1 & Hwf1 & _ & Hget1).
  destruct (Insert_total picks' t1 k v' Hwf1 Hk) as (t2 & Hins2 & _ & _ & Hget2).
  eauto 10.
Qed.

(** What holds with an empty root reference, whatever node the pool
    hands out: [Get] returns the zero value and [false] for every key,
    faulting on none; the next [Insert] takes a node from the pool,
    inserts into it and installs the result as the root, and the
    inserted key is then retrievable.  Nothing here says the node is a
    fresh one: see [recycled_root_reinstalled]. *)
Theorem empty_root_usable (t : RadixTree T)
    (Hroot : root t = None) (Hpool : wf_pool (pool t) = true) :
  (forall k, Get t k = Ok (zero, false)) /\
  (forall picks k v, key_ok k = true ->
     exists n0 s0 n s,
       pool_Get (pool t, picks) = (n0, s0) /\
       insert (Some n0) k v s0 = Ok (n, s) /\
       Insert picks t k v = Ok (mkTree (Some n) s.1) /\
       Get (mkTree (Some n) s.1) k = Ok (v, true)).
Proof.
  split.
  - intros k. unfold Get. rewrite Hroot. by destruct k.
  - intros picks k v Hk.
    destruct (pool_Get_wf (pool t, picks) Hpool) as [Hn0 Hs0].
    destruct (pool_Get (pool t, picks)) as [n0 s0] eqn:Hget. cbn [fst snd] in Hn0, Hs0.
    destruct (insert_total k (Some n0) v s0 Hk (pooled_ok_wf _ Hn0) Hs0)
      as (n & s & Hins & _ & _).
    exists n0, s0, n, s. split; [done|]. split; [done|]. split.
    + unfold Insert. rewrite Hroot, insert_nil, Hget. cbn [fst snd].
      by rewrite Hins.
    + destruct (get_insert _ _ _ _ _ _ Hins) as (m & Hm & Ht & Hv).
      unfold Get. cbn [root]. rewrite Hm. cbn [rbind]. by rewrite Ht, Hv.
Qed.


End Generic.

Lemma Insert_then_Get_witness :
  exists t1, Insert [] (@New Z _) "ab" 1%Z = Ok t1 /\ Get t1 "ab" = Ok (1%Z, true) /\
  exists t2, Insert [] t1 "ab" 2%Z = Ok t2 /\ Get t2 "ab" = Ok (2%Z, true).
Proof. apply (Insert_then_Get [] [] New "ab" 1%Z 2%Z); reflexivity. Defined.

Example released_root_reached : Delete New "" = Ok (true, released_root).
Proof. reflexivity. Qed.

Lemma empty_root_usable_witness :
  (forall k, Get released_root k = Ok (0%Z, false)) /\
  (forall picks k v, key_ok k = true ->
     exists n0 s0 n s,
       pool_Get (pool released_root, picks) = (n0, s0) /\
       insert (Some n0) k v s0 = Ok (n, s) /\
       Insert picks released_root k v = Ok (mkTree (Some n) s.1) /\
       Get (mkTree (Some n) s.1) k = Ok (v, true)).
Proof. apply (empty_root_usable released_root); reflexivity. Defined.



(** * Scenarios on a tree of integers *)

Section Scenarios.
Local Open Scope Z_scope.
Local Abbreviation New := (@New Z _).

(** C1. [Delete("ab")] does not leave the longer key retrievable: with
    "a", "ab" and "abc" stored as 1, 2 and 3, it returns [true],
    [Get("ab")] then gives [(0, false)] and [Get("a")] still [(1, true)],
    but [Get("abc")] gives [(0, false)]: the node of "ab" is released
    together with everything below it. *)
Theorem Delete_drops_longer_keys :
  exists t3 t4,
    run_ops New [OpInsert [] "a" 1; OpInsert [] "ab" 2; OpInsert [] "abc" 3] = Ok t3 /\
    Get t3 "a" = Ok (1, true) /\ Get t3 "ab" = Ok (2, true) /\
    Get t3 "abc" = Ok (3, true) /\ Get t3 "abcd" = Ok (0, false) /\
    Delete t3 "ab" = Ok (true, t4) /\
    Get t4 "ab" = Ok (0, false) /\ Get t4 "a" = Ok (1, true) /\
    Get t4 "abc" = Ok (0, false).
Proof.
  eexists _, _. split; [vm_compute; reflexivity|].
  do 4 (split; [reflexivity|]).
  split; [vm_compute; reflexivity|]. by repeat split.
Qed.

(** C2. [Delete] returns [true] for keys that are not stored: for any
    key on a new tree, and for "a" when only "ab" is stored. *)
Theorem Delete_reports_absent_keys :
  (Get New "x" = Ok (0, false) /\ exists t', Delete New "x" = Ok (true, t')) /\
  exists t1, Insert [] New "ab" 2 = Ok t1 /\
    Get t1 "a" = Ok (0, false) /\ ~ stored (root t1) "a" /\
    exists t2, Delete t1 "a" = Ok (true, t2).
Proof.
  split.
  - split; [reflexivity|]. eexists. vm_compute. reflexivity.
  - eexists. split; [vm_compute; reflexivity|]. split; [reflexivity|]. split.
    + intros (m & Hget & Hm). vm_compute in Hget. injection Hget as <-. discriminate.
    + eexists. vm_compute. reflexivity.
Qed.

(** C3. After "ab" is inserted and deleted again, the node of "a" is
    still linked from the root, not terminal and without children. *)
Theorem Delete_leaves_dangling_node :
  exists t2 m,
    run_ops New [OpInsert [] "ab" 2; OpDelete "ab"] = Ok t2 /\
    get (root t2) "a" = Ok (Some m) /\
    terminal m = false /\ isLeaf m = true /\ pruned t2 = false.
Proof.
  eexists _, _. split; [vm_compute; reflexivity|].
  split; [vm_compute; reflexivity|]. by repeat split.
Qed.

(** C5. [Delete] of a key that is not stored is not a no-op: with only
    "ab" stored, [Delete("a")] returns [true] and takes "ab" out of the
    tree. *)
Theorem Delete_of_prefix_changes_tree :
  exists t1 t2,
    Insert [] New "ab" 2 = Ok t1 /\ ~ stored (root t1) "a" /\
    Delete t1 "a" = Ok (true, t2) /\
    Get t1 "ab" = Ok (2, true) /\ Get t2 "ab" = Ok (0, false) /\ t2 <> t1.
Proof.
  eexists _, _. split; [vm_compute; reflexivity|]. split.
  { intros (m & Hget & Hm). vm_compute in Hget. injection Hget as <-. discriminate. }
  split; [vm_compute; reflexivity|]. do 2 (split; [reflexivity|]).
  intros Heq. apply (f_equal root) in Heq. vm_compute in Heq. discriminate.
Qed.

(** C6. A node that comes back from the pool can carry [terminal = true]
    and an old value: [Delete("a")] with "ab" stored pools the node of
    "ab" as it is, and an [Insert("xy")] that is handed this node for
    "x" makes [Get("x")] return [(2, true)].  Its slots are empty. *)
Theorem recycled_node_keeps_terminal :
  exists t2 n s t3,
    run_ops New [OpInsert [] "ab" 2; OpDelete "a"] = Ok t2 /\
    pool_Get (pool t2, [1%nat]) = (n, s) /\
    terminal n = true /\ value n = 2 /\ isLeaf n = true /\
    Insert [1%nat] t2 "xy" 5 = Ok t3 /\ Get t3 "x" = Ok (2, true).
Proof.
  eexists _, _, _, _. split; [vm_compute; reflexivity|].
  split; [vm_compute; reflexivity|]. do 3 (split; [reflexivity|]).
  split; [vm_compute; reflexivity|]. reflexivity.
Qed.

(** C10. The node [Insert] installs as the root of a tree without one
    need not be a fresh one.  After "a" is inserted as 1 and the empty
    key deleted, the tree has no root and the pool holds the node of "a"
    with [terminal = true] and value 1; an [Insert("b", 2)] that is
    handed this node makes it the root, and [Get("")] returns
    [(1, true)].  The inserted key is retrievable. *)
Theorem recycled_root_reinstalled :
  exists t1 n s t2,
    run_ops New [OpInsert [] "a" 1; OpDelete ""] = Ok t1 /\
    root t1 = None /\ Get t1 "" = Ok (0, false) /\
    pool_Get (pool t1, [1%nat]) = (n, s) /\
    terminal n = true /\ value n = 1 /\
    Insert [1%nat] t1 "b" 2 = Ok t2 /\
    root t2 <> None /\ Get t2 "b" = Ok (2, true) /\ Get t2 "" = Ok (1, true).
Proof.
  eexists _, _, _, _. split; [vm_compute; reflexivity|].
  do 2 (split; [reflexivity|]). split; [vm_compute; reflexivity|].
  do 2 (split; [reflexivity|]). split; [vm_compute; reflexivity|].
  split; [discriminate|]. split; reflexivity.
Qed.

(** *** Traverse *)

Lemma yield_none_waiting (sched : list (list nat)) (stack : list (ref Z)) :
  yield sched stack [] = (stack, [], tail sched).
Proof.
  destruct sched as [|now sched]; [done|]. cbn [yield tail]. f_equal.
  induction now as [|i now IH]; [done|]. cbn [foldl].
  by rewrite <- IH at 2.
Qed.

Lemma yield_one_waiting (sched : list (list nat)) (stack cs : list (ref Z)) :
  yield sched stack [cs] = (stack, [cs], tail sched) \/
  yield sched stack [cs] = (stack ++ cs, [], tail sched).
Proof.
  destruct sched as [|now sched]; [by left|]. cbn [yield tail].
  induction now as [|i now IH]; [by left|]. cbn [foldl].
  destruct i as [|i]; [|exact IH].
  right. change (run_goroutine (stack, [cs]) 0%nat) with (stack ++ cs, @nil (list (ref Z))).
  pose proof (yield_none_waiting (now :: sched) (stack ++ cs)) as Hy.
  cbn [yield tail] in Hy. exact Hy.
Qed.

(** A root that is not terminal and has one child, a terminal leaf. *)
Lemma traverse_one_child (p q : ptr) (nd leaf : node Z) fuel sched :
  terminal nd = false -> hasChildren nd = true ->
  children_from p 0 (edges nd) = [Some (q, leaf)] ->
  terminal leaf = true ->
  let r := traverse_loop fuel sched [Some (p, nd)] [] [] in
  r = OutOfFuel \/ r = Returned [] \/ r = Faulted SliceBoundsOutOfRange [].
Proof.
  intros Hnd Hhas Hcs Hleaf. destruct fuel as [|fuel]; [by left|].
  cbn [traverse_loop]. rewrite yield_none_waiting.
  cbn [pop last removelast app]. rewrite yield_none_waiting.
  rewrite Hnd, Hhas, Hcs. cbn [length Nat.ltb Nat.leb app].
  destruct fuel as [|fuel]; [by left|]. right.
  cbn [traverse_loop].
  destruct (yield_one_waiting (tail (tail sched)) [] [Some (q, leaf)]) as [-> | ->].
  - by left.
  - cbn [pop last removelast app]. rewrite yield_none_waiting.
    rewrite Hleaf. by right.
Qed.

(** A node with more than ten children: the loop calls [wg.Wait()]
    while its own [wg.Add(1)] is still outstanding, and stays there. *)
Lemma Traverse_wide_node_blocks :
  exists t,
    run_ops New (map (fun k => OpInsert [] k 1)
                   ["a"; "b"; "c"; "d"; "e"; "f"; "g"; "h"; "i"; "j"; "k"]%string)
      = Ok t /\
    forall fuel sched, Traverse (S fuel) sched t = Blocked [].
Proof.
  eexists. split; [vm_compute; reflexivity|].
  intros fuel sched. unfold Traverse. cbn [traverse_loop].
  rewrite yield_none_waiting. cbn [root_ref root pop last removelast app].
  rewrite yield_none_waiting. reflexivity.
Qed.

(** C7. With the single key "a" stored, no schedule makes [Traverse]
    visit it: either the loop ends before the goroutine has pushed the
    node of "a", and nothing is visited, or that node is popped, the
    stack is empty again, and [prefix] faults on [stack[1:]]. *)
Theorem Traverse_single_key_unvisited :
  exists t, Insert [] New "a" 1 = Ok t /\
    Get t "a" = Ok (1, true) /\
    Traverse 3 [] t = Returned [] /\
    Traverse 3 [[]; []; [0%nat]] t = Faulted SliceBoundsOutOfRange [] /\
    forall fuel sched,
      Traverse fuel sched t = OutOfFuel \/
      Traverse fuel sched t = Returned [] \/
      Traverse fuel sched t = Faulted SliceBoundsOutOfRange [].
Proof.
  eexists. split; [vm_compute; reflexivity|]. do 3 (split; [reflexivity|]).
  intros fuel sched. unfold Traverse.
  eapply (traverse_one_child [] [97%nat]); [reflexivity..|].
  reflexivity.
Qed.

(** C8. [Traverse] faults although no key byte is out of range: with the
    empty key stored, the root is popped, the stack is empty, and
    [prefix] takes [stack[1:]] of it. *)
Theorem Traverse_empty_key_faults :
  exists t, Insert [] New "" 1 = Ok t /\ key_ok "" = true /\
    Get t "" = Ok (1, true) /\
    forall fuel sched,
      Traverse (S fuel) sched t = Faulted SliceBoundsOutOfRange [].
Proof.
  eexists. split; [vm_compute; reflexivity|]. do 2 (split; [reflexivity|]).
  intros fuel sched. unfold Traverse. cbn [traverse_loop].
  rewrite yield_none_waiting. cbn [root_ref root pop last removelast app].
  rewrite yield_none_waiting. reflexivity.
Qed.

End Scenarios.

(** * Further properties of the operations *)

Section Further.
Context {T : Type} `{ZeroValue T}.
Implicit Types (n nd : node T) (e : option (node T)) (p : list (node T))
  (key k : string) (c : ascii) (t : RadixTree T).

Local Abbreviation slots_count es :=
  (foldr (fun e acc => match e with
                       | None => acc
                       | Some ch => node_count ch + acc
                       end) 0 es).

Lemma node_count_unfold n : node_count n = S (slots_count (edges n)).
Proof. by destruct n. Qed.

Lemma slots_count_insert (es : list (option (node T))) i old new :
  es !! i = Some old ->
  slots_count (<[i:=new]> es) + ref_count old = slots_count es + ref_count new.
Proof.
  revert i. induction es as [|e es IH]; intros [|i] Hi; simplify_eq/=.
  - destruct old, new; simpl; lia.
  - specialize (IH i Hi). destruct e; lia.
Qed.

Lemma node_count_set_edge n c old new :
  edge_at n c = Ok old ->
  node_count (set_edge n c new) + ref_count old = node_count n + ref_count new.
Proof.
  intros Hold%edge_at_Ok. rewrite !node_count_unfold. cbn [set_edge edges].
  pose proof (slots_count_insert (edges n) (slot c) old new Hold). lia.
Qed.

Lemma release_count n : forall p, length (release n p) = node_count n + length p.
Proof.
  induction n as [b v es IH] using node_ind. intros p.
  rewrite release_unfold, node_count_unfold. cbn [terminal value edges pool_Put length].
  f_equal. unfold release_edges. revert p.
  induction es as [|e es IHes]; intros p; [done|].
  apply Forall_cons in IH as [IHe IH]. cbn [foldl foldr].
  rewrite (IHes IH). destruct e as [ch|]; [|done]. rewrite IHe. lia.
Qed.

Lemma delete_count key : forall e (d d' : bool) p e' p',
  delete e key d p = Ok (e', d', p') ->
  ref_count e' + length p' = ref_count e + length p.
Proof.
  induction key as [|c key IH]; intros [nd|] d d' p e' p'; cbn -[release node_count];
    try by intros [= <- <- <-].
  - intros [= <- <- <-]. rewrite release_count, !node_count_unfold. done.
  - intros (e1 & He1 & Hrest)%rbind_ok.
    apply rbind_ok in Hrest as ([[child d1] p1] & Hdel & Hres).
    specialize (IH _ _ _ _ _ _ Hdel).
    pose proof (node_count_set_edge nd c e1 child He1) as Hcount.
    destruct (negb _ && _ && _); injection Hres as <- <- <-;
      cbn [ref_count]; rewrite ?release_count; lia.
Qed.

Lemma delete_true_releases key : forall e p e' p',
  delete e key false p = Ok (e', true, p') -> length p < length p'.
Proof.
  induction key as [|c key IH]; intros [nd|] p e' p'; cbn -[release node_count];
    try by intros [= <- <-].
  - intros [= <- <-]. rewrite release_count, node_count_unfold. lia.
  - intros (e1 & He1 & Hrest)%rbind_ok.
    apply rbind_ok in Hrest as ([[child d1] p1] & Hdel & Hres).
    destruct d1.
    + rewrite andb_false_r in Hres. injection Hres as <- <-. by eapply IH.
    + apply delete_false_unchanged in Hdel as (_ & -> & ->).
      destruct (negb _ && _ && _); [|discriminate].
      injection Hres as <- <-. rewrite release_count, node_count_unfold. lia.
Qed.

(** *** Slots of an updated node *)

Lemma slot_inj c c' : slot c = slot c' -> c = c'.
Proof.
  unfold slot. intros Heq. by rewrite <- (ascii_nat_embedding c), Heq, ascii_nat_embedding.
Qed.

Lemma edge_at_set_edge_ne n c c' x :
  c <> c' -> edge_at (set_edge n c x) c' = edge_at n c'.
Proof.
  intros Hne. unfold edge_at. cbn [set_edge edges].
  rewrite list_lookup_insert_ne; [done|]. by intros ?%slot_inj.
Qed.

Lemma edge_at_leaf n c e : isLeaf n = true -> edge_at n c = Ok e -> e = None.
Proof. intros Hl He%edge_at_Ok. by eapply isLeaf_spec. Qed.

Lemma get_nil key : get (@None (node T)) key = Ok None.
Proof. by destruct key. Qed.

(** *** What [delete] does to lookups *)

Lemma get_after_delete key : forall e (d d' : bool) p e' p',
  delete e key d p = Ok (e', d', p') -> get e' key = Ok None.
Proof.
  induction key as [|c key IH]; intros [nd|] d d' p e' p'; cbn -[release];
    try by intros [= <- <- <-].
  intros (e1 & He1 & Hrest)%rbind_ok.
  apply rbind_ok in Hrest as ([[child d1] p1] & Hdel & Hres).
  destruct (negb _ && _ && _); injection Hres as <- <- <-; [done|].
  cbn [get]. rewrite (edge_at_set_edge _ _ _ _ He1). cbn [rbind]. eauto.
Qed.

Lemma delete_adds_no_node key : forall e (d d' : bool) p e' p' k m,
  delete e key d p = Ok (e', d', p') -> get e' k = Ok (Some m) ->
  exists m0, get e k = Ok (Some m0) /\ terminal m0 = terminal m /\ value m0 = value m.
Proof.
  induction key as [|c key IH]; intros [nd|] d d' p e' p' k m; cbn -[release];
    try (intros [= <- <- <-]; rewrite get_nil; discriminate).
  intros (e1 & He1 & Hrest)%rbind_ok.
  apply rbind_ok in Hrest as ([[child d1] p1] & Hdel & Hres).
  destruct (negb _ && _ && _); injection Hres as <- <- <-;
    [rewrite get_nil; discriminate|].
  destruct k as [|c' k]; cbn [get].
  - intros [= <-]. by exists nd.
  - destruct (decide (c = c')) as [<-|Hne].
    + rewrite (edge_at_set_edge _ _ _ _ He1), He1. cbn [rbind]. eauto.
    + by rewrite (edge_at_set_edge_ne _ _ _ _ Hne); eauto.
Qed.

Lemma delete_keeps_unrelated key : forall e (d d' : bool) p e' p' k m,
  delete e key d p = Ok (e', d', p') -> String.prefix key k = false ->
  get e k = Ok (Some m) -> terminal m = true ->
  exists m', get e' k = Ok (Some m') /\ terminal m' = true /\ value m' = value m.
Proof.
  induction key as [|c key IH]; intros [nd|] d d' p e' p' k m; cbn -[release];
    try (intros _ _; rewrite get_nil; discriminate);
    [intros _ Hpre; by destruct k|].
  intros (e1 & He1 & Hrest)%rbind_ok Hpre Hget Hm.
  apply rbind_ok in Hrest as ([[child d1] p1] & Hdel & Hres).
  change (terminal (set_edge nd c child)) with (terminal nd) in Hres.
  destruct (negb (terminal nd) && isLeaf (set_edge nd c child) && negb d1) eqn:Hcond;
    injection Hres as <- <- <-.
  - apply andb_true_iff in Hcond as [[Ht Hl]%andb_true_iff Hd].
    apply negb_true_iff in Ht, Hd. subst d1.
    apply delete_false_unchanged in Hdel as (_ & -> & _).
    rewrite (set_edge_same _ _ _ He1) in Hl.
    destruct k as [|c' k]; cbn [get] in Hget; [congruence|].
    apply rbind_ok in Hget as (x & Hx & Hget).
    rewrite (edge_at_leaf _ _ _ Hl Hx), get_nil in Hget. discriminate.
  - destruct k as [|c' k]; cbn [get] in Hget |- *.
    + injection Hget as <-. eauto.
    + cbn [String.prefix] in Hpre. destruct (ascii_dec c c') as [<-|Hne].
      * rewrite (edge_at_set_edge _ _ _ _ He1). rewrite He1 in Hget. cbn [rbind] in *.
        eauto.
      * rewrite (edge_at_set_edge_ne _ _ _ _ Hne). eauto.
Qed.

(** *** What [insert] does to lookups *)

Local Abbreviation look e k :=
  (let* hit := get e k in
   Ok match hit with
      | None => (zero, false)
      | Some hit_node => (value hit_node, terminal hit_node)
      end).

Lemma new_node_clean : clean (@new_node T _).
Proof. by split. Qed.

Lemma pool_Get_clean (s : @pstate T) :
  Forall clean s.1 -> clean (pool_Get s).1 /\ Forall clean (pool_Get s).2.1.
Proof.
  destruct s as [p picks]. unfold pool_Get. cbn [fst snd]. intros Hp.
  destruct picks as [|i picks]; cbn [fst snd]; [by split; [apply new_node_clean|]|].
  destruct (p !! i) as [n|] eqn:Hi; cbn [fst snd]; [|by split; [apply new_node_clean|]].
  split; [by eapply (proj1 (Forall_lookup _ _) Hp)|by apply Forall_delete].
Qed.

Lemma or_acquire_clean e (s : @pstate T) :
  Forall clean s.1 -> Forall clean (or_acquire e s).2.1.
Proof. destruct e; [done|]. apply pool_Get_clean. Qed.

Lemma insert_or_acquire key e (v : T) (s : pstate) :
  insert e key v s = insert (Some (or_acquire e s).1) key v (or_acquire e s).2.
Proof. destruct key; simpl; by destruct (or_acquire e s). Qed.

Lemma insert_pool_clean key : forall e (v : T) (s s' : pstate) n',
  insert e key v s = Ok (n', s') -> Forall clean s.1 -> Forall clean s'.1.
Proof.
  induction key as [|c key IH]; intros e v s s' n'; simpl;
    pose proof (or_acquire_clean e s) as Hacq;
    destruct (or_acquire e s) as [nd s1]; cbn [fst snd] in Hacq.
  - intros [= <- <-]. done.
  - intros (e1 & He1 & Hrest)%rbind_ok Hs.
    pose proof (or_acquire_clean e1 s1 (Hacq Hs)) as Hacq1.
    destruct (or_acquire e1 s1) as [child s2]. cbn [fst snd] in Hacq1.
    apply rbind_ok in Hrest as ([child' s3] & Hins & [= <- <-]).
    by eapply IH.
Qed.

Lemma look_clean_leaf nd k :
  pooled_ok nd = true -> clean nd -> key_ok k = true ->
  look (Some nd) k = Ok (zero, false).
Proof.
  intros [Hlen%Nat.eqb_eq Hleaf]%andb_true_iff [Ht Hv] Hk.
  destruct k as [|c k]; cbn [get rbind]; [by rewrite Ht, Hv|].
  apply andb_true_iff in Hk as [Hc%Nat.ltb_lt Hk].
  destruct (edge_at_in_range nd c Hlen Hc) as [e He]. rewrite He. cbn [rbind].
  by rewrite (edge_at_leaf _ _ _ Hleaf He), get_nil.
Qed.

Lemma look_or_acquire e (s : @pstate T) k :
  wf_pool s.1 = true -> Forall clean s.1 -> key_ok k = true ->
  look (Some (or_acquire e s).1) k = look e k.
Proof.
  intros Hwf Hcl Hk. destruct e as [nd|]; [done|]. cbn [or_acquire].
  rewrite get_nil. cbn [rbind].
  apply look_clean_leaf; [by apply pool_Get_wf|by apply pool_Get_clean|done].
Qed.

Lemma insert_frame key : forall nd (v : T) (s s' : pstate) n' k,
  insert (Some nd) key v s = Ok (n', s') ->
  wf_node nd = true -> wf_pool s.1 = true -> Forall clean s.1 ->
  key_ok k = true -> key <> k ->
  look (Some n') k = look (Some nd) k.
Proof.
  induction key as [|c key IH]; intros nd v s s' n' k; simpl.
  - intros [= <- <-] _ _ _ _ Hne. by destruct k.
  - intros (e1 & He1 & Hrest)%rbind_ok Hnd Hwf Hcl Hk Hne.
    pose proof (or_acquire_wf e1 s (wf_node_edge _ _ _ Hnd He1) Hwf) as [Hch Hwf2].
    pose proof (or_acquire_clean e1 s Hcl) as Hcl2.
    pose proof (look_or_acquire e1 s) as Hlook.
    destruct (or_acquire e1 s) as [child s2]. cbn [fst snd] in *.
    apply rbind_ok in Hrest as ([child' s3] & Hins & [= <- <-]).
    destruct k as [|c' k]; [done|].
    apply andb_true_iff in Hk as [_ Hk]. cbn [get].
    destruct (decide (c = c')) as [<-|Hcc].
    + rewrite (edge_at_set_edge _ _ _ _ He1), He1. cbn [rbind].
      rewrite (IH _ _ _ _ _ k Hins Hch Hwf2 Hcl2 Hk) by congruence.
      by apply Hlook.
    + by rewrite (edge_at_set_edge_ne _ _ _ _ Hcc).
Qed.

Lemma insert_faults key : forall e (v : T) (s : pstate),
  key_ok key = false -> wf_ref e = true -> wf_pool s.1 = true ->
  insert e key v s = Panic IndexOutOfRange.
Proof.
  induction key as [|c key IH]; intros e v s Hk He Hs; [done|]. simpl.
  destruct (or_acquire_wf e s He Hs) as [Hn Hp].
  destruct (or_acquire e s) as [nd s1]. cbn [fst snd] in Hn, Hp.
  pose proof (proj1 (wf_node_spec nd) Hn) as [Hlen _].
  cbn [key_ok] in Hk. destruct (slot c <? branchingFactor) eqn:Hc.
  - apply Nat.ltb_lt in Hc. destruct (edge_at_in_range nd c Hlen Hc) as [e1 He1].
    rewrite He1. cbn [rbind].
    destruct (or_acquire_wf e1 s1 (wf_node_edge _ _ _ Hn He1) Hp) as [Hch Hp2].
    destruct (or_acquire e1 s1) as [child s2]. cbn [fst snd] in Hch, Hp2.
    by rewrite (IH (Some child) v s2 Hk Hch Hp2).
  - apply Nat.ltb_ge in Hc. by rewrite (edge_at_out_of_range nd c Hlen Hc).
Qed.

Lemma insert_again key : forall nd (v v' : T) (s s' s2 : pstate) n',
  insert (Some nd) key v s = Ok (n', s') ->
  (exists n'', insert (Some n') key v' s2 = Ok (n'', s2)) /\
  insert (Some n') key v s2 = Ok (n', s2).
Proof.
  induction key as [|c key IH]; intros nd v v' s s' s2 n'; simpl.
  - intros [= <- <-]. eauto.
  - intros (e1 & He1 & Hrest)%rbind_ok.
    destruct (or_acquire e1 s) as [child s1].
    apply rbind_ok in Hrest as ([child' s3] & Hins & [= <- <-]).
    pose proof (edge_at_set_edge _ _ _ (Some child') He1) as Hedge.
    rewrite Hedge. cbn [rbind or_acquire].
    destruct (IH _ _ v' _ _ s2 _ Hins) as [[n'' ->] ->]. cbn [rbind].
    split; [eauto|]. by rewrite (set_edge_same _ _ _ Hedge).
Qed.

Lemma Get_look t k : Get t k = look (root t) k.
Proof. done. Qed.

Lemma look_hit e k v :
  look e k = Ok (v, true) <->
  exists m, get e k = Ok (Some m) /\ terminal m = true /\ value m = v.
Proof.
  split.
  - intros ([m|] & Hget & [= <- Ht])%rbind_ok; eauto.
  - intros (m & -> & Ht & <-). cbn [rbind]. by rewrite Ht.
Qed.

(** *** Insert *)

Lemma Insert_frame (picks : list nat) t k k' (v : T) :
  wf_tree t = true -> Forall clean (pool t) ->
  key_ok k = true -> key_ok k' = true -> k <> k' ->
  exists t', Insert picks t k v = Ok t' /\
             Get t' k' = Get t k' /\ Forall clean (pool t').
Proof.
  intros [Hr Hp]%wf_tree_spec Hclean Hk Hk' Hne. unfold Insert.
  destruct (insert_total k (root t) v (pool t, picks) Hk Hr Hp)
    as (n' & s' & Hins & _ & _).
  rewrite Hins. cbn [rbind]. eexists. split; [done|]. split.
  - rewrite !Get_look. cbn [root].
    rewrite <- (look_or_acquire (root t) (pool t, picks) k' Hp Hclean Hk').
    rewrite insert_or_acquire in Hins.
    destruct (or_acquire_wf (root t) (pool t, picks) Hr Hp) as [Hnd Hp1].
    apply (insert_frame k _ v _ s' n' k' Hins Hnd Hp1); [|done..].
    by apply or_acquire_clean.
  - cbn [pool]. by apply (insert_pool_clean _ _ _ _ _ _ Hins).
Qed.

Lemma Insert_clean (picks : list nat) t k (v : T) t' :
  Insert picks t k v = Ok t' -> Forall clean (pool t) -> Forall clean (pool t').
Proof.
  unfold Insert. intros ([n s] & Hins & [= <-])%rbind_ok Hcl.
  by apply (insert_pool_clean _ _ _ _ _ _ Hins).
Qed.

(** X1. [Insert k v] leaves the answer of [Get] for every other key as it
    was, when the nodes the pool holds are clean (not terminal, zero
    value); the pool stays clean. *)
Theorem Insert_keeps_other_keys (picks : list nat) t k k' (v : T)
    (Hwf : wf_tree t = true) (Hclean : Forall clean (pool t))
    (Hk : key_ok k = true) (Hk' : key_ok k' = true) (Hne : k <> k') :
  exists t', Insert picks t k v = Ok t' /\
             Get t' k' = Get t k' /\ Forall clean (pool t').
Proof. by apply Insert_frame. Qed.

(** X2. On a well-formed tree, [Insert] panics with an index out of range
    exactly when the key has a byte at or above the fan-out width,
    wherever in the key that byte stands; otherwise it returns. *)
Theorem Insert_faults_iff (picks : list nat) t k (v : T)
    (Hwf : wf_tree t = true) :
  (Insert picks t k v = Panic IndexOutOfRange <-> key_ok k = false) /\
  ((exists t', Insert picks t k v = Ok t') <-> key_ok k = true).
Proof.
  pose proof Hwf as [Hr Hp]%wf_tree_spec.
  destruct (key_ok k) eqn:Hk.
  - destruct (Insert_total picks t k v Hwf Hk) as (t' & Hins & _).
    rewrite Hins. split; split; try done. eauto.
  - assert (Insert picks t k v = Panic IndexOutOfRange) as ->.
    { unfold Insert. by rewrite (insert_faults k (root t) v (pool t, picks) Hk Hr Hp). }
    split; split; try done. by intros [? ?].
Qed.

(** X3. Inserting a key a second time with the same value changes
    neither the tree nor the pool, and inserting it with another value
    takes no node from the pool, whatever the picks. *)
Theorem Insert_twice (picks picks' : list nat) t k (v v' : T)
    (Hwf : wf_tree t = true) (Hk : key_ok k = true) :
  exists t1, Insert picks t k v = Ok t1 /\
             Insert picks' t1 k v = Ok t1 /\
             exists t2, Insert picks' t1 k v' = Ok t2 /\ pool t2 = pool t1.
Proof.
  apply wf_tree_spec in Hwf as [Hr Hp]. unfold Insert.
  destruct (insert_total k (root t) v (pool t, picks) Hk Hr Hp)
    as (n' & s' & Hins & _ & _).
  rewrite Hins. cbn [rbind]. eexists. split; [done|]. cbn [root pool].
  rewrite insert_or_acquire in Hins.
  destruct (insert_again k _ v v' _ _ (s'.1, picks') _ Hins) as [[n'' Hv'] Hv].
  rewrite Hv, Hv'. cbn [rbind fst]. eauto.
Qed.

Lemma Get_New k : key_ok k = true -> Get (@New T _) k = Ok (zero, false).
Proof.
  intros Hk. rewrite Get_look. cbn [root New].
  apply look_clean_leaf; [apply new_node_pooled_ok|apply new_node_clean|done].
Qed.

Lemma inserts_from (kvs : list (list nat * string * T)) : forall t,
  wf_tree t = true -> Forall clean (pool t) ->
  Forall (fun kv => key_ok kv.1.2 = true) kvs ->
  exists t', run_ops t (inserts kvs) = Ok t' /\
    wf_tree t' = true /\ Forall clean (pool t') /\
    forall k, key_ok k = true ->
      Get t' k = match latest kvs k with
                 | Some v => Ok (v, true)
                 | None => Get t k
                 end.
Proof.
  induction kvs as [|[[picks k1] v1] kvs IH]; intros t Hwf Hcl Hkeys.
  - exists t. by repeat split.
  - apply Forall_cons in Hkeys as [Hk1 Hkeys]. cbn [fst snd] in Hk1.
    destruct (Insert_total picks t k1 v1 Hwf Hk1) as (t1 & Hins & Hwf1 & _ & Hget1).
    pose proof (Insert_clean _ _ _ _ _ Hins Hcl) as Hcl1.
    destruct (IH t1 Hwf1 Hcl1 Hkeys) as (t' & Hrun & Hwf' & Hcl' & Hget').
    exists t'. cbn [inserts map run_ops apply_op]. rewrite Hins. cbn [rbind].
    split; [exact Hrun|]. split; [done|]. split; [done|].
    intros k Hk. rewrite (Hget' k Hk). cbn [latest].
    destruct (latest kvs k) as [v'|]; [done|].
    destruct (String.eqb_spec k1 k) as [<-|Hne]; [done|].
    destruct (Insert_frame picks t k1 k v1 Hwf Hcl Hk1 Hk Hne) as (t1' & Hins' & Heq & _).
    congruence.
Qed.

(** X4. A new tree that has only seen [Insert]s answers [Get] like a map:
    for a key that was inserted, the value of its last [Insert] and
    [true]; for any other key, the zero value and [false]. *)
Theorem inserts_behave_as_map (kvs : list (list nat * string * T)) k
    (Hkeys : Forall (fun kv => key_ok kv.1.2 = true) kvs)
    (Hk : key_ok k = true) :
  exists t, run_ops New (inserts kvs) = Ok t /\
    Get t k = Ok match latest kvs k with
                 | Some v => (v, true)
                 | None => (zero, false)
                 end.
Proof.
  destruct (inserts_from kvs New New_wf (Forall_nil_2 _) Hkeys)
    as (t & Hrun & _ & _ & Hget).
  exists t. split; [done|]. rewrite (Hget k Hk).
  destruct (latest kvs k); [done|]. by apply Get_New.
Qed.

(** *** Delete *)

(** X5. After [Delete k], [Get k] returns the zero value and [false],
    whatever the tree held. *)
Theorem Delete_then_Get t k
    (Hwf : wf_tree t = true) (Hk : key_ok k = true) :
  exists d t', Delete t k = Ok (d, t') /\ Get t' k = Ok (zero, false).
Proof.
  destruct (Delete_total t k Hwf Hk) as (d & t' & Hdel & _).
  exists d, t'. split; [done|]. unfold Delete in Hdel.
  apply rbind_ok in Hdel as ([[e d'] p] & Hdel & [= <- <-]).
  rewrite Get_look. cbn [root]. by rewrite (get_after_delete _ _ _ _ _ _ _ Hdel).
Qed.

(** X6. [Delete] stores nothing: a key that [Get] finds after [Delete k]
    was found before it, with the same value. *)
Theorem Delete_adds_no_key t k
    (Hwf : wf_tree t = true) (Hk : key_ok k = true) :
  exists d t', Delete t k = Ok (d, t') /\
    forall k' v, Get t' k' = Ok (v, true) -> Get t k' = Ok (v, true).
Proof.
  destruct (Delete_total t k Hwf Hk) as (d & t' & Hdel & _).
  exists d, t'. split; [done|]. unfold Delete in Hdel.
  apply rbind_ok in Hdel as ([[e d'] p] & Hdel & [= <- <-]).
  intros k' v. rewrite !Get_look. cbn [root].
  intros (m & Hget & Ht & Hv)%look_hit. apply look_hit.
  destruct (delete_adds_no_node _ _ _ _ _ _ _ _ _ Hdel Hget) as (m0 & ? & ? & ?).
  exists m0. repeat split; congruence.
Qed.

(** X7. [Delete k] keeps every stored key that does not begin with [k]:
    [Get] finds it afterwards with the same value. *)
Theorem Delete_keeps_unrelated_keys t k
    (Hwf : wf_tree t = true) (Hk : key_ok k = true) :
  exists d t', Delete t k = Ok (d, t') /\
    forall k' v, String.prefix k k' = false ->
      Get t k' = Ok (v, true) -> Get t' k' = Ok (v, true).
Proof.
  destruct (Delete_total t k Hwf Hk) as (d & t' & Hdel & _).
  exists d, t'. split; [done|]. unfold Delete in Hdel.
  apply rbind_ok in Hdel as ([[e d'] p] & Hdel & [= <- <-]).
  intros k' v Hpre. rewrite !Get_look. cbn [root].
  intros (m & Hget & Ht & Hv)%look_hit. apply look_hit.
  destruct (delete_keeps_unrelated _ _ _ _ _ _ _ _ _ Hdel Hpre Hget Ht) as (m' & ? & ? & ?).
  exists m'. repeat split; congruence.
Qed.

(** X9. What [Delete] returns, read on the tree: [true] when the tree
    has lost at least one node, [false] when the tree is as it was. *)
Theorem Delete_result t k
    (Hwf : wf_tree t = true) (Hk : key_ok k = true) :
  exists d t', Delete t k = Ok (d, t') /\
    if d then ref_count (root t') < ref_count (root t)
    else root t' = root t.
Proof.
  destruct (Delete_total t k Hwf Hk) as (d & t' & Hdel & _).
  exists d, t'. split; [done|]. destruct d.
  - unfold Delete in Hdel.
    apply rbind_ok in Hdel as ([[e d'] p] & Hdel & [= -> <-]). cbn [root].
    pose proof (delete_count _ _ _ _ _ _ _ Hdel).
    pose proof (delete_true_releases _ _ _ _ _ Hdel). lia.
  - by rewrite (Delete_false_unchanged _ _ _ Hdel).
Qed.

(** X10. [Delete] of a key that [Get] finds returns [true], on any tree
    and without fault. *)
Theorem Delete_found_key t k v
    (Hget : Get t k = Ok (v, true)) :
  exists t', Delete t k = Ok (true, t').
Proof.
  rewrite Get_look in Hget. apply look_hit in Hget as (m & Hget & Ht & _).
  assert (forall key e (d : bool) p, stored e key ->
            exists e' p', delete e key d p = Ok (e', true, p')) as Hstored.
  { clear. induction key as [|c key IH]; intros [nd|] d p (m & Hget & Hm);
      simpl in Hget; try discriminate; cbn -[release]; [eauto|].
    apply rbind_ok in Hget as (e1 & He1 & Hget). rewrite He1. cbn -[release].
    destruct (IH e1 d p) as (child & p1 & ->); [by exists m|].
    cbn -[release]. rewrite andb_false_r. eauto. }
  destruct (Hstored k (root t) false (pool t)) as (e' & p' & Hdel); [by exists m|].
  unfold Delete. rewrite Hdel. cbn [rbind]. eauto.
Qed.

(** X11. In every state reached from [New] by [Insert], [Get] and
    [Delete], each node has exactly [branchingFactor] slots and every
    pooled node has all its slots empty. *)
Theorem reachable_states_well_formed (ops : list (op T)) t
    (Hrun : run_ops New ops = Ok t) :
  wf_tree t = true.
Proof. revert Hrun. apply run_ops_wf, New_wf. Qed.

(** *** release, isLeaf, hasChildren *)

Lemma isLeaf_count n : isLeaf n = true -> node_count n = 1.
Proof.
  rewrite node_count_unfold. unfold isLeaf.
  induction (edges n) as [|[ch|] es IH]; cbn [forallb foldr]; done.
Qed.

Lemma hasChildren_isLeaf n : hasChildren n = negb (isLeaf n).
Proof.
  unfold hasChildren, isLeaf.
  induction (edges n) as [|[ch|] es IH]; cbn [existsb forallb]; done.
Qed.

(** X13. [hasChildren] and [isLeaf] are each other's negation. *)
Theorem hasChildren_not_isLeaf n : hasChildren n = negb (isLeaf n).
Proof. apply hasChildren_isLeaf. Qed.

(** *** Insert and the shape of the tree *)

Local Abbreviation dangles e :=
  (match e with
   | None => false
   | Some ch => negb (terminal ch) && isLeaf ch || has_dangling ch
   end).

Lemma has_dangling_unfold n :
  has_dangling n = existsb (fun e => dangles e) (edges n).
Proof. by destruct n. Qed.

Lemma isLeaf_no_dangling n : isLeaf n = true -> has_dangling n = false.
Proof.
  rewrite has_dangling_unfold. unfold isLeaf.
  induction (edges n) as [|[ch|] es IH]; cbn [forallb existsb]; done.
Qed.

Lemma existsb_lookup_false {A} (f : A -> bool) (l : list A) i x :
  existsb f l = false -> l !! i = Some x -> f x = false.
Proof.
  revert i. induction l as [|y l IH]; intros [|i] Hex Hi; simplify_eq/=;
    apply orb_false_iff in Hex as [? ?]; eauto.
Qed.

Lemma existsb_insert_false {A} (f : A -> bool) (l : list A) i x :
  existsb f l = false -> f x = false -> existsb f (<[i:=x]> l) = false.
Proof.
  revert i. induction l as [|y l IH]; intros [|i] Hex Hx; [done..| |];
    apply orb_false_iff in Hex as [? ?]; cbn; apply orb_false_iff; eauto.
Qed.

Lemma isLeaf_set_edge_Some n c e ch :
  edge_at n c = Ok e -> isLeaf (set_edge n c (Some ch)) = false.
Proof.
  intros He. apply not_true_is_false. intros Hl.
  by pose proof (edge_at_leaf _ _ _ Hl (edge_at_set_edge _ _ _ (Some ch) He)).
Qed.

Lemma or_acquire_no_dangling e (s : @pstate T) :
  wf_pool s.1 = true -> dangles e = false ->
  has_dangling (or_acquire e s).1 = false.
Proof.
  intros Hp He. destruct e as [nd|]; cbn [or_acquire fst].
  - by apply orb_false_iff in He as [_ ?].
  - apply isLeaf_no_dangling.
    by destruct (pool_Get_wf s Hp) as [[_ ?]%andb_true_iff _].
Qed.

Lemma insert_no_dangling key : forall nd (v : T) (s s' : pstate) n',
  insert (Some nd) key v s = Ok (n', s') ->
  wf_pool s.1 = true -> has_dangling nd = false ->
  has_dangling n' = false /\ negb (terminal n') && isLeaf n' = false.
Proof.
  induction key as [|c key IH]; intros nd v s s' n'; simpl.
  - intros [= <- <-] _ Hnd. by rewrite has_dangling_unfold in *.
  - intros (e1 & He1 & Hrest)%rbind_ok Hp Hnd.
    rewrite has_dangling_unfold in Hnd.
    pose proof (existsb_lookup_false _ _ _ _ Hnd (proj1 (edge_at_Ok _ _ _) He1)) as He1d.
    pose proof (or_acquire_no_dangling e1 s Hp He1d) as Hchild.
    assert (wf_pool (or_acquire e1 s).2.1 = true) as Hp2.
    { destruct e1; [done|]. by apply pool_Get_wf. }
    destruct (or_acquire e1 s) as [child s2]. cbn [fst snd] in Hchild, Hp2.
    apply rbind_ok in Hrest as ([child' s3] & Hins & [= <- <-]).
    destruct (IH _ _ _ _ _ Hins Hp2 Hchild) as [Hd Hl]. split.
    + rewrite has_dangling_unfold. cbn [set_edge edges].
      apply existsb_insert_false; [done|]. by rewrite Hl, Hd.
    + by rewrite (isLeaf_set_edge_Some _ _ _ _ He1), andb_false_r.
Qed.

(** X14. [Insert] leaves no node behind that is neither terminal nor has a
    child: a tree without such nodes below its root has none after it,
    whatever nodes the pool hands out. *)
Theorem Insert_keeps_pruned (picks : list nat) t k (v : T)
    (Hwf : wf_tree t = true) (Hk : key_ok k = true) (Hpr : pruned t = true) :
  exists t', Insert picks t k v = Ok t' /\ pruned t' = true.
Proof.
  apply wf_tree_spec in Hwf as [Hr Hp]. unfold Insert.
  destruct (insert_total k (root t) v (pool t, picks) Hk Hr Hp)
    as (n' & s' & Hins & _ & _).
  rewrite Hins. cbn [rbind]. eexists. split; [done|]. unfold pruned. cbn [root].
  rewrite insert_or_acquire in Hins.
  assert (has_dangling (or_acquire (root t) (pool t, picks)).1 = false) as Hnd.
  { unfold pruned in Hpr. destruct (root t) as [nd|]; cbn [or_acquire fst].
    - by apply negb_true_iff.
    - apply isLeaf_no_dangling.
      by destruct (pool_Get_wf (pool t, picks) Hp) as [[_ ?]%andb_true_iff _]. }
  assert (wf_pool (or_acquire (root t) (pool t, picks)).2.1 = true) as Hp2.
  { by apply or_acquire_wf. }
  destruct (insert_no_dangling _ _ _ _ _ _ Hins Hp2 Hnd) as [-> _]. done.
Qed.

Lemma pool_Get_count (s : @pstate T) :
  wf_pool s.1 = true ->
  node_count (pool_Get s).1 = 1 /\
  length (pool_Get s).2.1 <= length s.1 <= length (pool_Get s).2.1 + 1.
Proof.
  intros Hp. split.
  - apply isLeaf_count. by destruct (pool_Get_wf s Hp) as [[_ ?]%andb_true_iff _].
  - destruct s as [p picks]. unfold pool_Get. cbn [fst snd].
    destruct picks as [|i picks]; cbn [fst snd]; [lia|].
    destruct (p !! i) as [n|] eqn:Hi; cbn [fst snd]; [|lia].
    rewrite length_delete by eauto. apply lookup_lt_Some in Hi. lia.
Qed.

Lemma or_acquire_count e (s : @pstate T) :
  wf_pool s.1 = true ->
  ref_count e <= node_count (or_acquire e s).1 <= ref_count e + 1 /\
  length (or_acquire e s).2.1 <= length s.1 /\
  ref_count e + length s.1 <= node_count (or_acquire e s).1 + length (or_acquire e s).2.1.
Proof.
  intros Hp. destruct e as [nd|]; cbn [or_acquire ref_count fst snd]; [lia|].
  destruct (pool_Get_count s Hp) as [-> ?]. lia.
Qed.

Lemma insert_count key : forall nd (v : T) (s s' : pstate) n',
  insert (Some nd) key v s = Ok (n', s') -> wf_pool s.1 = true ->
  node_count nd <= node_count n' <= node_count nd + String.length key /\
  length s'.1 <= length s.1 /\
  node_count nd + length s.1 <= node_count n' + length s'.1.
Proof.
  induction key as [|c key IH]; intros nd v s s' n'; simpl.
  - intros [= <- <-] _. rewrite !node_count_unfold. cbn [edges]. lia.
  - intros (e1 & He1 & Hrest)%rbind_ok Hp.
    pose proof (or_acquire_count e1 s Hp) as Hacq.
    assert (wf_pool (or_acquire e1 s).2.1 = true) as Hp2.
    { destruct e1; [done|]. by apply pool_Get_wf. }
    destruct (or_acquire e1 s) as [child s2]. cbn [fst snd] in Hacq, Hp2.
    apply rbind_ok in Hrest as ([child' s3] & Hins & [= <- <-]).
    specialize (IH _ _ _ _ _ Hins Hp2).
    pose proof (node_count_set_edge nd c e1 (Some child') He1) as Hset.
    cbn [ref_count] in Hset. lia.
Qed.

(** X15. [Insert] takes no node out of the tree and links at most one
    new node per key byte, and one more only when the root reference was
    empty. *)
Theorem Insert_node_bound (picks : list nat) t k (v : T)
    (Hwf : wf_tree t = true) (Hk : key_ok k = true) :
  exists t', Insert picks t k v = Ok t' /\
    ref_count (root t) <= ref_count (root t')
      <= ref_count (root t) + String.length k
         + match root t with None => 1 | Some _ => 0 end.
Proof.
  apply wf_tree_spec in Hwf as [Hr Hp]. unfold Insert.
  destruct (insert_total k (root t) v (pool t, picks) Hk Hr Hp)
    as (n' & s' & Hins & _ & _).
  rewrite Hins. cbn [rbind]. eexists. split; [done|]. cbn [root ref_count].
  rewrite insert_or_acquire in Hins.
  assert (wf_pool (or_acquire (root t) (pool t, picks)).2.1 = true) as Hp2.
  { by apply or_acquire_wf. }
  pose proof (insert_count _ _ _ _ _ _ Hins Hp2) as Hcount.
  destruct (root t) as [nd|]; cbn [or_acquire fst snd ref_count] in *; [lia|].
  destruct (pool_Get_count (pool t, picks) Hp) as [Hone _].
  rewrite Hone in Hcount. lia.
Qed.

(** *** Traverse, up to the first goroutine *)

Lemma yield_nothing_waiting (sched : list (list nat)) (stack : list (ref T)) :
  yield sched stack [] = (stack, [], tail sched).
Proof.
  destruct sched as [|now sched]; [done|]. cbn [yield tail]. f_equal.
  induction now as [|i now IH]; [done|]. cbn [foldl].
  by rewrite <- IH at 2.
Qed.

Lemma no_children_from n (p : ptr) i :
  hasChildren n = false -> children_from p i (edges n) = [].
Proof.
  unfold hasChildren. revert i.
  induction (edges n) as [|[ch|] es IH]; intros i; cbn [existsb children_from]; eauto.
  done.
Qed.

(** X16. When the empty key is stored, [Traverse] panics before it has
    visited anything: the root is popped, the stack is empty, and
    [prefix] slices it from 1. *)
Theorem Traverse_faults_when_empty_key_stored t (v : T) fuel sched
    (Hget : Get t EmptyString = Ok (v, true)) :
  Traverse (S fuel) sched t = Faulted SliceBoundsOutOfRange [].
Proof.
  rewrite Get_look in Hget. apply look_hit in Hget as (m & Hget & Ht & _).
  unfold Traverse, root_ref. destruct (root t) as [n|]; [|discriminate].
  injection Hget as ->. cbn [traverse_loop].
  rewrite yield_nothing_waiting. cbn [pop last removelast app].
  rewrite yield_nothing_waiting. by rewrite Ht.
Qed.

(** X17. When the root is not terminal and has more than ten children,
    [Traverse] visits nothing and does not return: it waits on the wait
    group while holding a count of its own. *)
Theorem Traverse_blocks_on_wide_root t n fuel sched
    (Hroot : root t = Some n) (Hterm : terminal n = false)
    (Hwide : 10 < length (children_from [] 0 (edges n))) :
  Traverse (S fuel) sched t = @Blocked T [].
Proof.
  unfold Traverse, root_ref. rewrite Hroot. cbn [traverse_loop].
  rewrite yield_nothing_waiting. cbn [pop last removelast app].
  rewrite yield_nothing_waiting. rewrite Hterm.
  destruct (hasChildren n) eqn:Hhas.
  - by rewrite (proj2 (Nat.ltb_lt _ _) Hwide).
  - rewrite (no_children_from n [] 0 Hhas) in Hwide. cbn [length] in Hwide. lia.
Qed.

(** X18. On a tree that has no root, or whose root is not terminal and
    has no child, [Traverse] returns without a visit. *)
Theorem Traverse_of_nothing t fuel sched
    (Hempty : forall n, root t = Some n -> terminal n = false /\ isLeaf n = true) :
  Traverse (S (S fuel)) sched t = @Returned T [].
Proof.
  unfold Traverse, root_ref. destruct (root t) as [n|].
  - destruct (Hempty n eq_refl) as [Ht Hl]. cbn [traverse_loop].
    rewrite yield_nothing_waiting. cbn [pop last removelast app].
    rewrite yield_nothing_waiting. rewrite Ht, hasChildren_isLeaf, Hl.
    cbn [negb]. by rewrite yield_nothing_waiting.
  - cbn [traverse_loop]. rewrite yield_nothing_waiting. cbn [pop last removelast app].
    by rewrite yield_nothing_waiting.
Qed.

(** *** Get and bytes out of range *)

Lemma get_out_of_range k1 : forall e c k2,
  wf_ref e = true -> key_ok k1 = true -> branchingFactor <= slot c ->
  get e (k1 +:+ String c k2) =
  match get e k1 with
  | Ok (Some _) => Panic IndexOutOfRange
  | _ => Ok None
  end.
Proof.
  induction k1 as [|c1 k1 IH]; intros [nd|] c k2 He Hk Hc;
    [change (EmptyString +:+ String c k2) with (String c k2)..
    |change (String c1 k1 +:+ String c k2) with (String c1 (k1 +:+ String c k2))
    |change (String c1 k1 +:+ String c k2) with (String c1 (k1 +:+ String c k2))];
    cbn [get]; try done.
  - apply wf_node_spec in He as [Hlen _].
    by rewrite (edge_at_out_of_range nd c Hlen Hc).
  - apply andb_true_iff in Hk as [Hc1%Nat.ltb_lt Hk].
    pose proof (proj1 (wf_node_spec nd) He) as [Hlen _].
    destruct (edge_at_in_range nd c1 Hlen Hc1) as [e1 He1]. rewrite He1. cbn [rbind].
    apply IH; [by eapply wf_node_edge|done..].
Qed.

(** X19. A key byte at or above the fan-out width makes [Get] panic only
    when the descent reaches it on a node: if the bytes before it lead
    to a node, [Get] panics with an index out of range; if they lead to
    an empty slot, [Get] returns the zero value and [false]. *)
Theorem Get_out_of_range t k1 c k2
    (Hwf : wf_tree t = true) (Hk1 : key_ok k1 = true)
    (Hc : branchingFactor <= slot c) :
  Get t (k1 +:+ String c k2) =
  match get (root t) k1 with
  | Ok (Some _) => Panic IndexOutOfRange
  | _ => Ok (zero, false)
  end.
Proof.
  apply wf_tree_spec in Hwf as [Hr _]. unfold Get.
  rewrite (get_out_of_range k1 (root t) c k2 Hr Hk1 Hc).
  by destruct (get (root t) k1) as [[m|]|].
Qed.

(** *** Delete where it removes one key only *)

Lemma prefix_cons_inv c k k' :
  String.prefix (String c k) k' = true ->
  exists k1', k' = String c k1' /\ String.prefix k k1' = true.
Proof.
  destruct k' as [|c' k1']; cbn [String.prefix]; [discriminate|].
  destruct (ascii_dec c c') as [<-|]; [eauto|discriminate].
Qed.

Lemma no_key_below k : forall e k' r (v : T),
  get e k = Ok r -> (forall m, r = Some m -> isLeaf m = true) ->
  String.prefix k k' = true -> k <> k' ->
  look e k' <> Ok (v, true).
Proof.
  induction k as [|c k IH]; intros [nd|] k' r v Hget Hleaf Hpre Hne;
    try (rewrite get_nil; discriminate).
  - cbn [get] in Hget. injection Hget as <-. specialize (Hleaf nd eq_refl).
    destruct k' as [|c' k']; [done|]. cbn [get].
    destruct (edge_at nd c') as [e1|] eqn:He1; [|discriminate]. cbn [rbind].
    rewrite (edge_at_leaf _ _ _ Hleaf He1), get_nil. discriminate.
  - apply prefix_cons_inv in Hpre as (k1' & -> & Hpre).
    cbn [get] in Hget |- *. apply rbind_ok in Hget as (e1 & He1 & Hget).
    rewrite He1. cbn [rbind]. eapply IH; eauto. congruence.
Qed.

(** X20. When the node of [k] is missing or has no children, [Delete k]
    touches no other key: every key other than [k] is found after it
    exactly when it was found before, with the same value. *)
Theorem Delete_exact_when_leaf t k
    (Hwf : wf_tree t = true) (Hk : key_ok k = true)
    (Hleaf : forall m, get (root t) k = Ok (Some m) -> isLeaf m = true) :
  exists d t', Delete t k = Ok (d, t') /\
    forall k' v, k' <> k ->
      (Get t' k' = Ok (v, true) <-> Get t k' = Ok (v, true)).
Proof.
  destruct (Delete_total t k Hwf Hk) as (d & t' & Hdel & _).
  exists d, t'. split; [done|]. unfold Delete in Hdel.
  apply rbind_ok in Hdel as ([[e d'] p] & Hdel & [= <- <-]).
  apply wf_tree_spec in Hwf as [Hr _].
  destruct (get_total k (root t) Hk Hr) as [r Hr'].
  intros k' v Hne. rewrite !Get_look. cbn [root]. split.
  - intros (m & Hget & Ht & Hv)%look_hit. apply look_hit.
    destruct (delete_adds_no_node _ _ _ _ _ _ _ _ _ Hdel Hget) as (m0 & ? & ? & ?).
    exists m0. repeat split; congruence.
  - intros Hlook. destruct (String.prefix k k') eqn:Hpre.
    + exfalso. apply (no_key_below k (root t) k' r v Hr'); [|done|congruence|done].
      intros m ->. by apply Hleaf.
    + apply look_hit in Hlook as (m & Hget & Ht & Hv). apply look_hit.
      destruct (delete_keeps_unrelated _ _ _ _ _ _ _ _ _ Hdel Hpre Hget Ht)
        as (m' & ? & ? & ?).
      exists m'. repeat split; congruence.
Qed.

End Further.

(** ** The further properties at concrete trees *)

Lemma Insert_keeps_other_keys_witness :
  exists t', Insert [] abc_tree "abd" 4%Z = Ok t' /\
             Get t' "ab" = Get abc_tree "ab" /\ Forall clean (pool t').
Proof.
  apply (Insert_keeps_other_keys [] abc_tree "abd" "ab" 4%Z);
    [reflexivity|vm_compute; constructor|reflexivity|reflexivity|discriminate].
Defined.

Lemma Insert_faults_iff_witness :
  (Insert [] abc_tree (String (ascii_of_nat 200) "") 4%Z = Panic IndexOutOfRange <->
   key_ok (String (ascii_of_nat 200) "") = false) /\
  ((exists t', Insert [] abc_tree (String (ascii_of_nat 200) "") 4%Z = Ok t') <->
   key_ok (String (ascii_of_nat 200) "") = true).
Proof.
  apply (Insert_faults_iff [] abc_tree (String (ascii_of_nat 200) "") 4%Z). reflexivity.
Defined.

Lemma Insert_twice_witness :
  exists t1, Insert [] abc_tree "abd" 4%Z = Ok t1 /\
             Insert [0] t1 "abd" 4%Z = Ok t1 /\
             exists t2, Insert [0] t1 "abd" 5%Z = Ok t2 /\ pool t2 = pool t1.
Proof. apply (Insert_twice [] [0] abc_tree "abd" 4%Z 5%Z); reflexivity. Defined.

Lemma inserts_behave_as_map_witness :
  exists t,
    run_ops New (inserts [([], "a", 1%Z); ([], "ab", 2%Z); ([], "a", 3%Z)]) = Ok t /\
    Get t "a" =
    Ok match latest [([], "a", 1%Z); ([], "ab", 2%Z); ([], "a", 3%Z)] "a" with
       | Some v => (v, true)
       | None => (zero, false)
       end.
Proof.
  apply (inserts_behave_as_map [([], "a", 1%Z); ([], "ab", 2%Z); ([], "a", 3%Z)] "a");
    [repeat constructor|reflexivity].
Defined.

Lemma Delete_then_Get_witness :
  exists d t', Delete abc_tree "ab" = Ok (d, t') /\ Get t' "ab" = Ok (0%Z, false).
Proof. apply (Delete_then_Get abc_tree "ab"); reflexivity. Defined.

Lemma Delete_adds_no_key_witness :
  exists d t', Delete abc_tree "ab" = Ok (d, t') /\
    forall k' v, Get t' k' = Ok (v, true) -> Get abc_tree k' = Ok (v, true).
Proof. apply (Delete_adds_no_key abc_tree "ab"); reflexivity. Defined.

Lemma Delete_keeps_unrelated_keys_witness :
  exists d t', Delete abc_tree "ab" = Ok (d, t') /\
    forall k' v, String.prefix "ab" k' = false ->
      Get abc_tree k' = Ok (v, true) -> Get t' k' = Ok (v, true).
Proof. apply (Delete_keeps_unrelated_keys abc_tree "ab"); reflexivity. Defined.

Lemma Delete_result_witness :
  exists d t', Delete abc_tree "ab" = Ok (d, t') /\
    if d then ref_count (root t') < ref_count (root abc_tree)
    else root t' = root abc_tree.
Proof. apply (Delete_result abc_tree "ab"); reflexivity. Defined.

Lemma Delete_found_key_witness : exists t', Delete abc_tree "ab" = Ok (true, t').
Proof. apply (Delete_found_key abc_tree "ab" 2%Z). reflexivity. Defined.

Lemma reachable_states_well_formed_witness : wf_tree abc_tree = true.
Proof.
  apply (reachable_states_well_formed
           [OpInsert [] "a" 1%Z; OpInsert [] "ab" 2%Z; OpInsert [] "abc" 3%Z]).
  reflexivity.
Defined.

Lemma Insert_keeps_pruned_witness :
  exists t', Insert [] abc_tree "abd" 4%Z = Ok t' /\ pruned t' = true.
Proof. apply (Insert_keeps_pruned [] abc_tree "abd" 4%Z); reflexivity. Defined.

Lemma Insert_node_bound_witness :
  exists t', Insert [] abc_tree "abd" 4%Z = Ok t' /\
    ref_count (root abc_tree) <= ref_count (root t')
      <= ref_count (root abc_tree) + String.length "abd"
         + match root abc_tree with None => 1 | Some _ => 0 end.
Proof. apply (Insert_node_bound [] abc_tree "abd" 4%Z); reflexivity. Defined.

Lemma Traverse_faults_when_empty_key_stored_witness :
  Traverse 1 [] empty_key_tree = Faulted SliceBoundsOutOfRange [].
Proof.
  apply (Traverse_faults_when_empty_key_stored empty_key_tree 7%Z 0 []). reflexivity.
Defined.

Lemma Traverse_blocks_on_wide_root_witness :
  Traverse 1 [] wide_tree = Blocked [].
Proof.
  destruct (root wide_tree) as [n|] eqn:Hroot; [|discriminate].
  apply (Traverse_blocks_on_wide_root wide_tree n 0 [] Hroot);
    vm_compute in Hroot; injection Hroot as <-; [reflexivity|vm_compute; lia].
Defined.

Lemma Traverse_of_nothing_witness :
  Traverse 2 [] (@New Z _) = Returned [].
Proof.
  apply (Traverse_of_nothing New 0 []). intros n [= <-]. split; reflexivity.
Defined.

Lemma Get_out_of_range_witness :
  Get abc_tree ("ab" +:+ String (ascii_of_nat 200) "c") =
  match get (root abc_tree) "ab" with
  | Ok (Some _) => Panic IndexOutOfRange
  | _ => Ok (0%Z, false)
  end.
Proof.
  apply (Get_out_of_range abc_tree "ab" (ascii_of_nat 200) "c");
    [reflexivity|reflexivity|vm_compute; lia].
Defined.

Lemma Delete_exact_when_leaf_witness :
  exists d t', Delete abc_tree "abc" = Ok (d, t') /\
    forall k' v, k' <> "abc"%string ->
      (Get t' k' = Ok (v, true) <-> Get abc_tree k' = Ok (v, true)).
Proof.
  apply (Delete_exact_when_leaf abc_tree "abc"); [reflexivity|reflexivity|].
  intros m Hget. vm_compute in Hget. injection Hget as <-. reflexivity.
Defined.
